(** * atemporal: the two one-shot test-file patch scripts

    [src/fix_comparison_tests.py] and [src/scripts/fix_cache_stats.py] each
    read one TypeScript test file, run a short sequence of [re.sub] calls over
    its text and write the text back.  This development embeds

    - the part of Python's [re] module the six patterns of the scripts use
      (module [Re]): a backtracking matcher for sequences of single
      characters, character classes, greedy [*], [+], [?] over a class and
      capture groups, together with [re.sub] and replacement templates;
    - the files and the console the scripts read and write (module [Os]);
    - the two scripts, rule by rule (modules [FixComparisonTests] and
      [FixCacheStats]).

    The facts follow: the matcher against the words of a pattern, then each
    rule on the texts it is meant for, the rule sequences on clean input and
    on repeated runs, and the scripts as programs that may fail.

    A document is a [list ascii]: one element per code point, for code points
    below 256.  The classes [\s], [\d] and [\w] are those of a [str] pattern
    (Unicode aware, no [re.ASCII] flag) on that range. *)

From Stdlib Require Import String Ascii Bool Arith NArith Lia List.
Import ListNotations.

Set Implicit Arguments.

Definition str := list ascii.

(** A Python string literal, as the list of its characters. *)
Definition txt (s : string) : str := list_ascii_of_string s.

Definition NL : ascii := "010"%char.

(** [sep.join(lines)] for a one-character separator. *)
Fixpoint join (sep : ascii) (lines : list str) : str :=
  match lines with
  | [] => []
  | [l] => l
  | l :: ls => l ++ sep :: join sep ls
  end.

Definition code (c : ascii) : N := N_of_ascii c.

Definition between (lo hi : N) (c : ascii) : bool :=
  ((lo <=? code c) && (code c <=? hi))%N.

(* ================================================================= *)
(** ** The fragment of [re] used by the scripts *)

Module Re.

(** *** Character classes *)

(** [\s] on a [str] pattern: [str.isspace], that is TAB..CR, FS..US, space,
    NEL (U+0085) and NBSP (U+00A0). *)
Definition is_space (c : ascii) : bool :=
  between 9 13 c || between 28 32 c || (code c =? 133)%N || (code c =? 160)%N.

(** [\d] on a [str] pattern: the decimal digits (category Nd); below 256
    these are [0-9] only. *)
Definition is_digit (c : ascii) : bool := between 48 57 c.

(** [\w] on a [str] pattern: [str.isalnum] or underscore.  Above ASCII this
    adds the Latin-1 letters, the superscript digits and the vulgar
    fractions. *)
Definition is_word (c : ascii) : bool :=
  between 48 57 c || between 65 90 c || (code c =? 95)%N || between 97 122 c
  || (code c =? 170)%N || between 178 179 c || (code c =? 181)%N
  || between 185 186 c || between 188 190 c
  || between 192 214 c || between 216 246 c || between 248 255 c.

Inductive cset : Type :=
| CChar (c : ascii)          (* a literal character, escaped or not *)
| CDigit                     (* \d *)
| CSpace                     (* \s *)
| CWord                      (* \w *)
| CRange (lo hi : ascii)     (* a-b inside brackets *)
| CUnion (a b : cset)        (* [ab] *)
| CNot (a : cset).           (* [^a] *)

Fixpoint cset_mem (cs : cset) (c : ascii) : bool :=
  match cs with
  | CChar d => Ascii.eqb d c
  | CDigit => is_digit c
  | CSpace => is_space c
  | CWord => is_word c
  | CRange lo hi => between (code lo) (code hi) c
  | CUnion a b => cset_mem a c || cset_mem b c
  | CNot a => negb (cset_mem a c)
  end.

(** *** Patterns *)

(** A pattern is a sequence of atoms.  Every quantifier in the scripts is
    greedy and applies to one character or class, and no group is nested or
    repeated, so the group parentheses are kept as marks in the sequence,
    the way the compiled pattern has them. *)
Inductive atom : Type :=
| One (cs : cset)            (* x *)
| Star (cs : cset)           (* x* *)
| Plus (cs : cset)           (* x+ *)
| Opt (cs : cset)            (* x? *)
| GOpen (g : nat)            (* ( of group g *)
| GClose (g : nat).          (* ) of group g *)

Definition regex := list atom.

(** The atoms of a run of literal characters. *)
Definition lits (l : str) : regex := map (fun c => One (CChar c)) l.

Definition lit (s : string) : regex := lits (txt s).

(** *** Reading a pattern *)

(** [re.compile] on the syntax the scripts use: literal characters, the
    escapes [\d \s \w \n] and escaped punctuation, bracketed sets with
    ranges and negation, the greedy quantifiers [* + ?] after a character
    or set, and plain groups.  Anything else is refused. *)

Definition is_ascii_alnum (c : ascii) : bool :=
  between 48 57 c || between 65 90 c || between 97 122 c.

(** The set an escape [\c] stands for. *)
Definition escape (c : ascii) : option cset :=
  if Ascii.eqb c "d" then Some CDigit
  else if Ascii.eqb c "s" then Some CSpace
  else if Ascii.eqb c "w" then Some CWord
  else if Ascii.eqb c "n" then Some (CChar NL)
  else if is_ascii_alnum c then None
  else Some (CChar c).

Inductive mode : Type :=
| Plain                                              (* outside brackets *)
| Escaped                                            (* after a backslash *)
| InSet (first neg : bool) (items : list cset) (dash : bool)
| InSetEscaped (neg : bool) (items : list cset).

Record pstate : Type := MkState
  { atoms : list atom;        (* read so far, last first *)
    quantifiable : bool;      (* the last atom is a character or set *)
    next_group : nat;
    open_groups : list nat;
    where_ : mode }.

Fixpoint union (items : list cset) : option cset :=
  match items with
  | [] => None
  | [a] => Some a
  | a :: rest => option_map (CUnion a) (union rest)
  end.

Definition quantify (q : cset -> atom) (st : pstate) : option pstate :=
  match quantifiable st, atoms st with
  | true, One cs :: rest =>
      Some (MkState (q cs :: rest) false (next_group st) (open_groups st) Plain)
  | _, _ => None
  end.

Definition push (a : atom) (q : bool) (st : pstate) : pstate :=
  MkState (a :: atoms st) q (next_group st) (open_groups st) Plain.

Definition in_set (first neg : bool) (items : list cset) (dash : bool)
  (st : pstate) : pstate :=
  MkState (atoms st) false (next_group st) (open_groups st)
          (InSet first neg items dash).

(** One character of the pattern. *)
Definition step (st : pstate) (c : ascii) : option pstate :=
  match where_ st with
  | Plain =>
      if Ascii.eqb c "\" then
        Some (MkState (atoms st) false (next_group st) (open_groups st) Escaped)
      else if Ascii.eqb c "[" then Some (in_set true false [] false st)
      else if Ascii.eqb c "(" then
        Some (MkState (GOpen (next_group st) :: atoms st) false
                      (S (next_group st)) (next_group st :: open_groups st) Plain)
      else if Ascii.eqb c ")" then
        match open_groups st with
        | g :: rest =>
            Some (MkState (GClose g :: atoms st) false (next_group st) rest Plain)
        | [] => None
        end
      else if Ascii.eqb c "*" then quantify Star st
      else if Ascii.eqb c "+" then quantify Plus st
      else if Ascii.eqb c "?" then quantify Opt st
      else if Ascii.eqb c "." || Ascii.eqb c "^" || Ascii.eqb c "$"
              || Ascii.eqb c "|" || Ascii.eqb c "{" then None
      else Some (push (One (CChar c)) true st)
  | Escaped =>
      match escape c with
      | Some cs => Some (push (One cs) true st)
      | None => None
      end
  | InSet first neg items dash =>
      if first && Ascii.eqb c "^" then Some (in_set false true items false st)
      else if Ascii.eqb c "]" then
        match union (rev (if dash then CChar "-" :: items else items)) with
        | Some cs => Some (push (One (if neg then CNot cs else cs)) true st)
        | None => None
        end
      else if Ascii.eqb c "\" then
        if dash then None
        else Some (MkState (atoms st) false (next_group st) (open_groups st)
                           (InSetEscaped neg items))
      else if dash then
        match items with
        | CChar lo :: rest => Some (in_set false neg (CRange lo c :: rest) false st)
        | _ => None
        end
      else if Ascii.eqb c "-" then
        match items with
        | [] => Some (in_set false neg [CChar c] false st)
        | _ => Some (in_set false neg items true st)
        end
      else Some (in_set false neg (CChar c :: items) false st)
  | InSetEscaped neg items =>
      match escape c with
      | Some cs => Some (in_set false neg (cs :: items) false st)
      | None => None
      end
  end.

Fixpoint steps (st : pstate) (p : str) : option pstate :=
  match p with
  | [] => Some st
  | c :: p' =>
      match step st c with
      | Some st' => steps st' p'
      | None => None
      end
  end.

(** [re.compile(p)], for a raw string [p]. *)
Definition compile (p : string) : option regex :=
  match steps (MkState [] false 1 [] Plain) (txt p) with
  | Some (MkState acc _ _ [] Plain) => Some (rev acc)
  | _ => None
  end.

(** *** Matching at a position *)

(** Offsets are counted from the position where the attempt started. *)
Record env : Type := MkEnv
  { starts : list (nat * nat);             (* group, offset of its ( *)
    spans : list (nat * (nat * nat)) }.    (* group, offsets of ( and ) *)

Definition env0 : env := MkEnv [] [].

Fixpoint assoc {A : Type} (g : nat) (l : list (nat * A)) : option A :=
  match l with
  | [] => None
  | (h, a) :: l' => if Nat.eqb g h then Some a else assoc g l'
  end.

Definition open_group (g n : nat) (e : env) : env :=
  MkEnv ((g, n) :: starts e) (spans e).

Definition close_group (g n : nat) (e : env) : env :=
  match assoc g (starts e) with
  | Some a => MkEnv (starts e) ((g, (a, n)) :: spans e)
  | None => e
  end.

Section Matcher.

Variable R : Type.

(** Greedy repetition of a class, then the continuation [k]: as many
    characters as possible first, one fewer on each failure of [k]. *)
Fixpoint star (cs : cset) (k : str -> nat -> option R) (s : str) (n : nat)
  : option R :=
  match s with
  | c :: s' =>
      if cset_mem cs c then
        match star cs k s' (S n) with
        | Some r => Some r
        | None => k s n
        end
      else k s n
  | [] => k s n
  end.

End Matcher.

(** [run r s n e]: match the atoms [r] against [s], which starts at offset
    [n]; the result is the end offset of the first match in backtracking
    order, with its groups. *)
Fixpoint run (r : regex) (s : str) (n : nat) (e : env) : option (nat * env) :=
  match r with
  | [] => Some (n, e)
  | One cs :: r' =>
      match s with
      | c :: s' => if cset_mem cs c then run r' s' (S n) e else None
      | [] => None
      end
  | Star cs :: r' => star cs (fun s' n' => run r' s' n' e) s n
  | Plus cs :: r' =>
      match s with
      | c :: s' =>
          if cset_mem cs c then star cs (fun s' n' => run r' s' n' e) s' (S n)
          else None
      | [] => None
      end
  | Opt cs :: r' =>
      match s with
      | c :: s' =>
          if cset_mem cs c then
            match run r' s' (S n) e with
            | Some x => Some x
            | None => run r' s n e
            end
          else run r' s n e
      | [] => run r' s n e
      end
  | GOpen g :: r' => run r' s n (open_group g n e)
  | GClose g :: r' => run r' s n (close_group g n e)
  end.

(** The match object of an attempt at the head of [s]. *)
Record rmatch : Type := MkMatch
  { m_end : nat;                           (* m.end() - m.start() *)
    m_spans : list (nat * (nat * nat)) }.

Definition match_at (r : regex) (s : str) : option rmatch :=
  match run r s 0 env0 with
  | Some (n, e) => Some (MkMatch n (spans e))
  | None => None
  end.

Definition slice (s : str) (a b : nat) : str := firstn (b - a) (skipn a s).

(** [m.group(g)], for a match [m] found at the head of [s]; a group that
    took no part in the match gives the empty string. *)
Definition group (s : str) (m : rmatch) (g : nat) : str :=
  match g with
  | 0 => firstn (m_end m) s
  | _ => match assoc g (m_spans m) with
         | Some (a, b) => slice s a b
         | None => []
         end
  end.

(** *** Replacement *)

Inductive piece : Type :=
| Txt (t : str)              (* literal text of a template *)
| Ref (g : nat).             (* \g *)

Inductive repl : Type :=
| Template (t : list piece)
| Callable (f : (nat -> str) -> str).   (* a function of the match: m.group *)

Fixpoint expand_template (t : list piece) (s : str) (m : rmatch) : str :=
  match t with
  | [] => []
  | Txt x :: t' => x ++ expand_template t' s m
  | Ref g :: t' => group s m g ++ expand_template t' s m
  end.

Definition expand (rp : repl) (s : str) (m : rmatch) : str :=
  match rp with
  | Template t => expand_template t s m
  | Callable f => f (group s m)
  end.

(** *** [re.sub] *)

(** [sub_loop r rp s skip]: the scan of [re.sub] at the head of [s], with
    [skip] characters of the previous match still to pass over.  An empty
    match is replaced and the scan moves one character on. *)
Fixpoint sub_loop (r : regex) (rp : repl) (s : str) (skip : nat) : str :=
  match skip with
  | S k =>
      match s with
      | _ :: s' => sub_loop r rp s' k
      | [] => []
      end
  | 0 =>
      match match_at r s with
      | Some m =>
          expand rp s m ++
          match s with
          | c :: s' =>
              match m_end m with
              | 0 => c :: sub_loop r rp s' 0
              | S k => sub_loop r rp s' k
              end
          | [] => []
          end
      | None =>
          match s with
          | c :: s' => c :: sub_loop r rp s' 0
          | [] => []
          end
      end
  end.

(** [re.sub(r, rp, s)]. *)
Definition sub (r : regex) (rp : repl) (s : str) : str := sub_loop r rp s 0.

(** [re.search(r, s)]: the offset and match object of the leftmost match. *)
Fixpoint search (r : regex) (s : str) : option (nat * rmatch) :=
  match match_at r s with
  | Some m => Some (0, m)
  | None =>
      match s with
      | [] => None
      | _ :: s' =>
          match search r s' with
          | Some (i, m) => Some (S i, m)
          | None => None
          end
      end
  end.

(** *** The words of a pattern *)

(** What a pattern matches, apart from the order in which the matcher tries
    things: used to say that a text contains an occurrence of a pattern. *)
Definition in_cset (cs : cset) (c : ascii) : Prop := cset_mem cs c = true.

Definition atom_lang (a : atom) (w : str) : Prop :=
  match a with
  | One cs => exists c, w = [c] /\ in_cset cs c
  | Star cs => Forall (in_cset cs) w
  | Plus cs => w <> [] /\ Forall (in_cset cs) w
  | Opt cs => w = [] \/ exists c, w = [c] /\ in_cset cs c
  | GOpen _ => w = []
  | GClose _ => w = []
  end.

Fixpoint lang (r : regex) (w : str) : Prop :=
  match r with
  | [] => w = []
  | a :: r' => exists w1 w2, w = w1 ++ w2 /\ atom_lang a w1 /\ lang r' w2
  end.

(** [x] contains an occurrence of the pattern [r]. *)
Definition occurs (r : regex) (x : str) : Prop :=
  exists pre w post, x = pre ++ w ++ post /\ lang r w.

(** No match of [r] starts inside [pre] when [pre] is followed by [tail]. *)
Fixpoint clear_before (r : regex) (pre tail : str) : bool :=
  match pre with
  | [] => true
  | c :: pre' =>
      match match_at r (pre ++ tail) with
      | Some _ => false
      | None => clear_before r pre' tail
      end
  end.

End Re.

(* ================================================================= *)
(** ** Files and the console *)

Module Os.

Inductive oserror : Type :=
| FileNotFoundError
| PermissionError.

(** A file of the disk: its text as the default encoding decodes it, and
    whether the process may read and write it. *)
Record file : Type := MkFile
  { data : str;
    readable : bool;
    writable : bool }.

Definition path := string.

Record world : Type := MkWorld
  { disk : path -> option file;
    stdout : list str }.

(** A step of a script: it fails with an error or gives a value, and leaves
    a world. *)
Definition io (A : Type) : Type := world -> (oserror + A) * world.

Definition ret {A : Type} (a : A) : io A := fun w => (inr a, w).

Definition bind {A B : Type} (m : io A) (k : A -> io B) : io B :=
  fun w =>
    match m w with
    | (inl err, w') => (inl err, w')
    | (inr a, w') => k a w'
    end.

Definition CR : ascii := "013"%char.

(** Text mode with [newline=None]: on input [\r\n] and a lone [\r] are read
    as [\n]. *)
Fixpoint universal_newlines (s : str) : str :=
  match s with
  | [] => []
  | c :: s' =>
      if Ascii.eqb c CR then
        match s' with
        | d :: s'' =>
            if Ascii.eqb d NL then NL :: universal_newlines s''
            else NL :: universal_newlines s'
        | [] => [NL]
        end
      else c :: universal_newlines s'
  end.

Definition update (d : path -> option file) (p : path) (f : file)
  : path -> option file :=
  fun q => if String.eqb q p then Some f else d q.

(** [with open(p, 'r') as f: content = f.read()] *)
Definition read_text (p : path) : io str :=
  fun w =>
    match disk w p with
    | None => (inl FileNotFoundError, w)
    | Some f =>
        if readable f then (inr (universal_newlines (data f)), w)
        else (inl PermissionError, w)
    end.

(** [with open(p, 'w') as f: f.write(content)]: the file is truncated and
    written, or created when it is missing; the line separator of the
    platform is [\n]. *)
Definition write_text (p : path) (content : str) : io unit :=
  fun w =>
    match disk w p with
    | None =>
        (inr tt, MkWorld (update (disk w) p (MkFile content true true)) (stdout w))
    | Some f =>
        if writable f then
          (inr tt,
           MkWorld (update (disk w) p (MkFile content (readable f) (writable f)))
                   (stdout w))
        else (inl PermissionError, w)
    end.

(** [print(msg)] *)
Definition print (msg : str) : io unit :=
  fun w => (inr tt, MkWorld (disk w) (stdout w ++ [msg])).

(** The text of the file at [p], if there is one. *)
Definition text_at (p : path) (w : world) : option str :=
  option_map data (disk w p).

(** The file at [p] exists and may be read and written. *)
Definition accessible (p : path) (w : world) : bool :=
  match disk w p with
  | Some f => readable f && writable f
  | None => false
  end.

(** The file both scripts patch. *)
Definition target : path :=
  "/Users/jdavidoa91/Documents/GitHub/atemporal/src/__tests__/core/comparison/comparison-optimizer-coverage.test.ts"%string.

End Os.

Notation "x <- m ;; k" := (Os.bind m (fun x => k))
  (at level 61, m at next level, right associativity).
Notation "m ;;; k" := (Os.bind m (fun _ => k))
  (at level 61, right associativity).

(* ================================================================= *)
(** ** [src/fix_comparison_tests.py] *)

Module FixComparisonTests.
Import Re.

(** [(cacheMisses: \d+,)\s*\n\s*cacheMisses: \d+,] *)
Definition cacheMisses_pat : regex :=
  [GOpen 1] ++ lit "cacheMisses: " ++ [Plus CDigit; One (CChar ","); GClose 1;
   Star CSpace; One (CChar NL); Star CSpace]
  ++ lit "cacheMisses: " ++ [Plus CDigit; One (CChar ",")].

(** [(unitBreakdown: \{[^}]+\}),?\s*\n\s*unitBreakdown: \{[^}]+\}] *)
Definition unitBreakdown_pat : regex :=
  [GOpen 1] ++ lit "unitBreakdown: {" ++ [Plus (CNot (CChar "}")); One (CChar "}");
   GClose 1; Opt (CChar ","); Star CSpace; One (CChar NL); Star CSpace]
  ++ lit "unitBreakdown: {" ++ [Plus (CNot (CChar "}")); One (CChar "}")].

(** [},\s*}] *)
Definition brace_comma_pat : regex :=
  [One (CChar "}"); One (CChar ","); Star CSpace; One (CChar "}")].

(** Remove all duplicate cacheMisses properties. *)
Definition dedup_cacheMisses (content : str) : str :=
  sub cacheMisses_pat (Template [Ref 1]) content.

(** Remove all duplicate unitBreakdown properties. *)
Definition dedup_unitBreakdown (content : str) : str :=
  sub unitBreakdown_pat (Template [Ref 1]) content.

(** Fix any remaining syntax issues. *)
Definition fix_braces (content : str) : str :=
  sub brace_comma_pat (Template [Txt (txt "}" ++ NL :: txt "      }")]) content.

(** The three substitutions, in the order of the script. *)
Definition rewrite (content : str) : str :=
  let content := dedup_cacheMisses content in
  let content := dedup_unitBreakdown content in
  let content := fix_braces content in
  content.

(** The script: read the file, rewrite, write back to file, report. *)
Definition main : Os.io unit :=
  content <- Os.read_text Os.target ;;
  Os.write_text Os.target (rewrite content) ;;;
  Os.print (txt "Fixed duplicate properties in comparison optimizer test file").

End FixComparisonTests.

(* ================================================================= *)
(** ** [src/scripts/fix_cache_stats.py] *)

Module FixCacheStats.
Import Re.

(** Complete CacheStats template. *)
Definition complete_cache_stats : str :=
  join NL
    [ txt "{";
      txt "        hitRatio: 0.7,";
      txt "        size: 50,";
      txt "        maxSize: 100,";
      txt "        hits: 70,";
      txt "        misses: 30,";
      txt "        sets: 50,";
      txt "        evictions: 5,";
      txt "        hitRate: 0.7,";
      txt "        averageAccessTime: 0.002,";
      txt "        efficiency: 0.75";
      txt "      }" ].

(** [const \w+: CacheStats = \{[^}]+\};] *)
Definition const_pat : regex :=
  lit "const " ++ [Plus CWord] ++ lit ": CacheStats = {"
  ++ [Plus (CNot (CChar "}")); One (CChar "}"); One (CChar ";")].

(** [(\w+: CacheStats = )\{[^}]+\}] *)
Definition inline_pat : regex :=
  [GOpen 1; Plus CWord] ++ lit ": CacheStats = " ++
  [GClose 1; One (CChar "{"); Plus (CNot (CChar "}")); One (CChar "}")].

(** [frequency: [0-9.]+,\s*\n] *)
Definition frequency_pat : regex :=
  lit "frequency: " ++
  [Plus (CUnion (CRange "0" "9") (CChar ".")); One (CChar ","); Star CSpace;
   One (CChar NL)].

(** [x.split(sep)[0]]: the text before the first [sep], all of [x] when
    there is none. *)
Fixpoint split_head (sep : ascii) (x : str) : str :=
  match x with
  | [] => []
  | c :: x' => if Ascii.eqb c sep then [] else c :: split_head sep x'
  end.

(** [lambda m: m.group(0).split('=')[0] + '= ' + complete_cache_stats + ';'] *)
Definition const_repl (m_group : nat -> str) : str :=
  split_head "=" (m_group 0) ++ txt "= " ++ complete_cache_stats ++ txt ";".

(** Replace all CacheStats objects. *)
Definition replace_const (content : str) : str :=
  sub const_pat (Callable const_repl) content.

(** [r'\1' + complete_cache_stats] *)
Definition inline_repl : repl := Template [Ref 1; Txt complete_cache_stats].

(** Also fix inline CacheStats objects. *)
Definition replace_inline (content : str) : str :=
  sub inline_pat inline_repl content.

(** Remove frequency property from ComparisonProfile objects. *)
Definition strip_frequency (content : str) : str :=
  sub frequency_pat (Template []) content.

(** The three substitutions, in the order of the script. *)
Definition rewrite (content : str) : str :=
  let content := replace_const content in
  let content := replace_inline content in
  let content := strip_frequency content in
  content.

(** The script: read the file, rewrite, write back to file, report. *)
Definition main : Os.io unit :=
  content <- Os.read_text Os.target ;;
  Os.write_text Os.target (rewrite content) ;;;
  Os.print (txt "Fixed CacheStats objects and removed frequency properties").

End FixCacheStats.


(* ================================================================= *)
(** ** Texts and worlds the facts below are stated on *)

Module Texts.
Import Re Os.

(** *** Kinds of characters *)

(** The head of [s], if any, satisfies [P]. *)
Definition head_is (P : ascii -> Prop) (s : str) : Prop :=
  match s with
  | [] => True
  | c :: _ => P c
  end.

(** A character [[^}]] accepts. *)
Definition no_brace (c : ascii) : Prop := in_cset (CNot (CChar "}")) c.

(** A character [\w] accepts. *)
Definition word_char (c : ascii) : Prop := in_cset CWord c.

(** A character [\d] accepts. *)
Definition digit_char (c : ascii) : Prop := in_cset CDigit c.

(** A character [\s] accepts. *)
Definition space_char (c : ascii) : Prop := is_space c = true.

(** A whitespace character that does not end a line. *)
Definition blank_char (c : ascii) : Prop := is_space c = true /\ c <> NL.

(** [s] is empty or starts with a character that is not whitespace. *)
Definition starts_with_text (s : str) : Prop :=
  head_is (fun c => is_space c = false) s.

(** *** The target patterns *)

(** The five patterns the rules look for: the duplicated [cacheMisses]
    line, the duplicated [unitBreakdown] block, the comma between two closing
    braces, the [CacheStats] object literal and the [frequency] line.  The
    [const] declaration of the first substitution of [fix_cache_stats.py] is
    a special case of the fourth. *)
Definition target_patterns : list regex :=
  [ FixComparisonTests.cacheMisses_pat;
    FixComparisonTests.unitBreakdown_pat;
    FixComparisonTests.brace_comma_pat;
    FixCacheStats.inline_pat;
    FixCacheStats.frequency_pat ].

(** [x] contains no occurrence of any of the five patterns. *)
Definition clean (x : str) : Prop :=
  forall r, In r target_patterns -> ~ occurs r x.

(** The same, decided by [re.search]. *)
Definition cleanb (x : str) : bool :=
  forallb (fun r => match search r x with None => true | Some _ => false end)
          target_patterns.

(** *** Shapes of text *)

(** The text of a [const] declaration. *)
Definition const_decl (name body : str) : str :=
  txt "const " ++ name ++ txt ": CacheStats = {" ++ body ++ txt "};".

(** The text of an object literal with its type annotation. *)
Definition inline_decl (name body : str) : str :=
  name ++ txt ": CacheStats = " ++ txt "{" ++ body ++ txt "}".

(** What stands between the braces of the complete literal. *)
Definition complete_fields : str :=
  removelast (tl FixCacheStats.complete_cache_stats).

(** A [const] declaration with the complete literal as its value. *)
Definition complete_decl (name : str) : str :=
  txt "const " ++ name ++ txt ": CacheStats = "
  ++ FixCacheStats.complete_cache_stats ++ txt ";".

(** The [frequency] line of the specification. *)
Definition frequency_line : str := txt "frequency: 0.5," ++ [NL].

(** A [cacheMisses] property with the number [n], without its newline. *)
Definition cacheMisses_line (n : str) : str := txt "cacheMisses: " ++ n ++ txt ",".

(** A comma between two closing braces, with whitespace [gap] after it. *)
Definition braces_with_comma (gap : str) : str := txt "}," ++ gap ++ txt "}".

(** A [unitBreakdown] property whose value is the block [{b}]. *)
Definition unit_block (b : str) : str := txt "unitBreakdown: {" ++ b ++ txt "}".

(** Two such properties in a row: an optional comma, then whitespace. *)
Definition duplicated_blocks (b1 comma gap b2 : str) : str :=
  unit_block b1 ++ comma ++ gap ++ unit_block b2.

(** *** Sample inputs *)

(** A text with nothing to fix. *)
Definition tidy_text : str :=
  join NL
    [ txt "const stats = {";
      txt "  cacheMisses: 3,";
      txt "  unitBreakdown: { days: 1 },";
      txt "  frequency: high";
      txt "};" ].

(** Three [cacheMisses] lines in a row: one run leaves two of them. *)
Definition three_cacheMisses : str :=
  txt "cacheMisses: 1," ++ NL :: txt "cacheMisses: 2," ++ NL :: txt "cacheMisses: 3,".

(** A [frequency] line that appears only once an inner one is removed. *)
Definition nested_frequency : str :=
  txt "frequency: 1frequency: 2," ++ NL :: txt "," ++ [NL].

(** Two [x: 1,] lines: the text of the specification's example. *)
Definition duplicated_x : str := txt "x: 1," ++ NL :: txt "x: 1," ++ [NL].

(** The text of the specification's example for the third rule. *)
Definition value_comma_brace : str := txt "value," ++ NL :: txt "}".

(** The specification's rule 2 on a key other than [unitBreakdown]. *)
Definition duplicated_x_block : str := txt "x: {a}" ++ NL :: txt "x: {b}".

(** *** Sample worlds *)

(** A world whose target file exists but is read-only. *)
Definition read_only_world : world :=
  MkWorld (fun p => if String.eqb p target
                    then Some (MkFile (txt "const a = 1;") true false)
                    else None) [].

(** Two worlds with the same text in the target file and different consoles. *)
Definition quiet_world : world :=
  MkWorld (fun p => if String.eqb p target
                    then Some (MkFile (txt "cacheMisses: 1," ++ NL :: txt "cacheMisses: 2,") true true)
                    else None) [].

(** The same disk, with something already on the console. *)
Definition noisy_world : world :=
  MkWorld (disk quiet_world) [txt "earlier output"].

End Texts.

(* ================================================================= *)
(** ** More texts *)

Module MoreTexts.
Import Re Os Texts.

(** A character [[0-9.]] accepts. *)
Definition number_char (c : ascii) : Prop :=
  in_cset (CUnion (CRange "0" "9") (CChar ".")) c.

(** A [frequency] property with the number [num], up to its comma. *)
Definition frequency_field (num : str) : str :=
  txt "frequency: " ++ num ++ txt ",".

(** What the third rule of [fix_comparison_tests.py] writes. *)
Definition fixed_braces : str := txt "}" ++ NL :: txt "      }".

(** An annotated object literal with the complete literal as its value. *)
Definition complete_inline (name : str) : str :=
  name ++ txt ": CacheStats = " ++ FixCacheStats.complete_cache_stats.

(** [s] is empty or starts with a character other than the semicolon. *)
Definition no_semicolon_next (s : str) : Prop :=
  head_is (fun c => c <> ";"%char) s.

(** A text without carriage return. *)
Definition no_cr (s : str) : Prop := Forall (fun c => c <> CR) s.

(** Every group of [e] ends at offset [n] at the latest. *)
Definition spans_within (e : env) (n : nat) : Prop :=
  forall g a b, In (g, (a, b)) (spans e) -> b <= n.

(** A file with Windows line ends. *)
Definition crlf_file : file :=
  MkFile (txt "cacheMisses: 1," ++ CR :: NL :: txt "cacheMisses: 2," ++ [CR; NL])
         true true.

(** A world with that file at the target path, another file beside it and
    something on the console. *)
Definition two_file_world : world :=
  MkWorld (fun p => if String.eqb p target then Some crlf_file
                    else if String.eqb p "notes.txt" then Some (MkFile (txt "x") true false)
                    else None)
          [txt "earlier output"].

(** A world whose target file has nothing to fix. *)
Definition tidy_file : file := MkFile tidy_text true true.

Definition tidy_world : world :=
  MkWorld (fun p => if String.eqb p target then Some tidy_file else None) [].

(** A declaration whose value has an object inside. *)
Definition nested_decl : str :=
  txt "const s: CacheStats = { a: { b: 1 } };".

End MoreTexts.


(* ================================================================= *)
(** ** Facts about the matcher *)

Module ReFacts.
Import Re.
Import Texts.

Section StarFacts.

Variable R : Type.
Variable cs : cset.
Variable k : str -> nat -> option R.

(** A success of [star] is a success of the continuation after some run of
    class characters. *)
Lemma star_sound s : forall n r,
  star cs k s n = Some r ->
  exists w s', s = w ++ s' /\ Forall (in_cset cs) w /\ k s' (n + length w) = Some r.
Proof.
  induction s as [|c s IH]; intros n r H; simpl in H.
  - exists [], []. rewrite Nat.add_0_r. auto.
  - destruct (cset_mem cs c) eqn:Hc.
    + destruct (star cs k s (S n)) as [r'|] eqn:Hs.
      * injection H as <-. destruct (IH _ _ Hs) as (w & s' & -> & Hw & Hk).
        exists (c :: w), s'. simpl. rewrite Nat.add_succ_r. auto.
      * exists [], (c :: s). rewrite Nat.add_0_r. auto.
    + exists [], (c :: s). rewrite Nat.add_0_r. auto.
Qed.

(** If the continuation succeeds somewhere inside the run, so does [star]. *)
Lemma star_app_some w : forall s' n r,
  Forall (in_cset cs) w ->
  star cs k s' (n + length w) = Some r ->
  star cs k (w ++ s') n = Some r.
Proof.
  induction w as [|c w IH]; intros s' n r Hw H; simpl in *.
  - now rewrite Nat.add_0_r in H.
  - inversion Hw as [|? ? Hc Hw']; subst. unfold in_cset in Hc. rewrite Hc.
    rewrite (IH s' (S n) r Hw'); [reflexivity|].
    now rewrite Nat.add_succ_r in H.
Qed.

Lemma star_base s n :
  k s n <> None -> star cs k s n <> None.
Proof.
  destruct s as [|c s]; simpl; auto.
  destruct (cset_mem cs c); auto.
  destruct (star cs k s (S n)); auto. discriminate.
Qed.

Lemma star_complete w s' n :
  Forall (in_cset cs) w ->
  k s' (n + length w) <> None ->
  star cs k (w ++ s') n <> None.
Proof.
  intros Hw Hk.
  destruct (star cs k s' (n + length w)) as [r|] eqn:E.
  - rewrite (star_app_some _ _ Hw E). discriminate.
  - exfalso. eapply star_base; eauto.
Qed.

(** At the end of the run the repetition takes nothing more. *)
Lemma star_stop s n :
  head_is (fun c => cset_mem cs c = false) s -> star cs k s n = k s n.
Proof.
  destruct s as [|c s]; simpl; auto. now intros ->.
Qed.

(** The whole run is taken when the continuation accepts what follows. *)
Lemma star_greedy w s' n r :
  Forall (in_cset cs) w ->
  head_is (fun c => cset_mem cs c = false) s' ->
  k s' (n + length w) = Some r ->
  star cs k (w ++ s') n = Some r.
Proof.
  intros Hw Hs Hk. apply star_app_some; auto. now rewrite star_stop.
Qed.

(** [star] fails when the continuation fails wherever it could be tried. *)
Lemma star_none (P : ascii -> Prop) w : forall s' n,
  (forall t m, head_is P t -> k t m = None) ->
  Forall P w ->
  head_is (fun c => P c /\ cset_mem cs c = false) s' ->
  star cs k (w ++ s') n = None.
Proof.
  induction w as [|c w IH]; intros s' n Hk Hw Hs; simpl.
  - destruct s' as [|d s']; simpl in *.
    + now apply Hk.
    + destruct Hs as [Hd ->]. now apply Hk.
  - inversion Hw; subst. rewrite IH by auto.
    destruct (cset_mem cs c); now apply Hk.
Qed.

End StarFacts.

(** *** Literal runs *)

Lemma run_lits l : forall r s n e,
  run (lits l ++ r) (l ++ s) n e = run r s (n + length l) e.
Proof.
  induction l as [|c l IH]; intros; simpl.
  - now rewrite Nat.add_0_r.
  - rewrite Ascii.eqb_refl. unfold lits in IH. rewrite IH. f_equal. lia.
Qed.

Lemma run_lit l r s n e :
  run (lit l ++ r) (txt l ++ s) n e = run r s (n + String.length l) e.
Proof.
  unfold lit. rewrite run_lits. f_equal. unfold txt.
  f_equal. clear. induction l; simpl; auto.
Qed.

Lemma run_lits_inv l : forall r s n e x,
  run (lits l ++ r) s n e = Some x ->
  exists s', s = l ++ s' /\ run r s' (n + length l) e = Some x.
Proof.
  induction l as [|c l IH]; intros r s n e x H; simpl in *.
  - exists s. now rewrite Nat.add_0_r.
  - destruct s as [|d s]; [discriminate|].
    destruct (Ascii.eqb c d) eqn:E; [|discriminate].
    apply Ascii.eqb_eq in E. subst d.
    destruct (IH _ _ _ _ _ H) as (s' & -> & H').
    exists s'. split; auto. now rewrite Nat.add_succ_r.
Qed.

(** *** The matcher and the words of a pattern *)

Lemma run_sound r : forall s n e n' e',
  run r s n e = Some (n', e') ->
  exists w rest, s = w ++ rest /\ n' = n + length w /\ lang r w.
Proof.
  induction r as [|a r IH]; intros s n e n' e' H.
  - simpl in H. injection H as <- <-. exists [], s. simpl. auto.
  - destruct a as [cs|cs|cs|cs|g|g]; simpl in H.
    + destruct s as [|c s]; [discriminate|].
      destruct (cset_mem cs c) eqn:Hc; [|discriminate].
      destruct (IH _ _ _ _ _ H) as (w & rest & -> & -> & Hl).
      exists (c :: w), rest. repeat split; simpl; try lia.
      exists [c], w. repeat split; auto. now exists c.
    + apply star_sound in H. destruct H as (w1 & s' & -> & Hw & H).
      destruct (IH _ _ _ _ _ H) as (w & rest & -> & -> & Hl).
      exists (w1 ++ w), rest. rewrite <- app_assoc, length_app.
      repeat split; try lia. now exists w1, w.
    + destruct s as [|c s]; [discriminate|].
      destruct (cset_mem cs c) eqn:Hc; [|discriminate].
      apply star_sound in H. destruct H as (w1 & s' & -> & Hw & H).
      destruct (IH _ _ _ _ _ H) as (w & rest & -> & -> & Hl).
      exists (c :: w1 ++ w), rest. simpl. rewrite <- app_assoc, length_app.
      repeat split; try lia.
      exists (c :: w1), w. repeat split; auto. discriminate.
    + assert (Hskip : run r s n e = Some (n', e') ->
                exists w rest, s = w ++ rest /\ n' = n + length w /\ lang (Opt cs :: r) w).
      { intros H0. destruct (IH _ _ _ _ _ H0) as (w & rest & -> & -> & Hl).
        exists w, rest. repeat split; auto. exists [], w. simpl; auto. }
      destruct s as [|c s]; auto.
      destruct (cset_mem cs c) eqn:Hc; auto.
      destruct (run r s (S n) e) as [x|] eqn:Hr; auto.
      injection H as ->.
      destruct (IH _ _ _ _ _ Hr) as (w & rest & -> & -> & Hl).
      exists (c :: w), rest. repeat split; simpl; try lia.
      exists [c], w. repeat split; auto. right. now exists c.
    + destruct (IH _ _ _ _ _ H) as (w & rest & -> & -> & Hl).
      exists w, rest. repeat split; auto. exists [], w. simpl; auto.
    + destruct (IH _ _ _ _ _ H) as (w & rest & -> & -> & Hl).
      exists w, rest. repeat split; auto. exists [], w. simpl; auto.
Qed.

Lemma run_complete r : forall w rest n e,
  lang r w -> run r (w ++ rest) n e <> None.
Proof.
  induction r as [|a r IH]; intros w rest n e H; simpl in H.
  - simpl. discriminate.
  - destruct H as (w1 & w2 & -> & Ha & Hl). rewrite <- app_assoc.
    destruct a as [cs|cs|cs|cs|g|g]; simpl in Ha |- *.
    + destruct Ha as (c & -> & Hc). simpl. unfold in_cset in Hc. rewrite Hc. auto.
    + apply star_complete; auto.
    + destruct Ha as [Hne Hw]. destruct w1 as [|c w1]; [congruence|].
      inversion Hw as [|? ? Hc Hw']; subst. simpl. unfold in_cset in Hc. rewrite Hc.
      apply star_complete; auto.
    + destruct Ha as [->|(c & -> & Hc)]; simpl.
      * destruct (w2 ++ rest) as [|d t] eqn:E; [rewrite <- E; auto|].
        destruct (cset_mem cs d); [|rewrite <- E; auto].
        destruct (run r t (S n) e); [discriminate|rewrite <- E; auto].
      * unfold in_cset in Hc. rewrite Hc.
        destruct (run r (w2 ++ rest) (S n) e) eqn:E; [discriminate|].
        exfalso. now apply (IH w2 rest (S n) e).
    + subst. simpl. auto.
    + subst. simpl. auto.
Qed.

Lemma match_at_sound r s m :
  match_at r s = Some m ->
  exists w rest, s = w ++ rest /\ m_end m = length w /\ lang r w.
Proof.
  unfold match_at. destruct (run r s 0 env0) as [[n e]|] eqn:H; [|discriminate].
  intros [= <-]. destruct (run_sound _ _ _ _ H) as (w & rest & -> & -> & Hl).
  now exists w, rest.
Qed.

Lemma match_at_complete r w rest :
  lang r w -> match_at r (w ++ rest) <> None.
Proof.
  intros H. unfold match_at.
  destruct (run r (w ++ rest) 0 env0) as [[n e]|] eqn:E; [discriminate|].
  exfalso. eapply run_complete; eauto.
Qed.

(** *** Occurrences and [re.search] *)

Lemma occurs_cons r c x : occurs r x -> occurs r (c :: x).
Proof.
  intros (pre & w & post & -> & H). now exists (c :: pre), w, post.
Qed.

Lemma occurs_tail r c x :
  occurs r (c :: x) -> match_at r (c :: x) = None -> occurs r x.
Proof.
  intros (pre & w & post & E & H) Hm. destruct pre as [|d pre].
  - simpl in E. rewrite E in Hm. exfalso. eapply match_at_complete; eauto.
  - injection E as -> ->. now exists pre, w, post.
Qed.

Lemma match_at_occurs r s m : match_at r s = Some m -> occurs r s.
Proof.
  intros E. destruct (match_at_sound _ _ E) as (w & rest & Hs & _ & Hl).
  now exists [], w, rest.
Qed.

Lemma search_some_occurs r x : forall i m,
  search r x = Some (i, m) -> occurs r x.
Proof.
  induction x as [|c x IH]; intros i m; simpl.
  - destruct (match_at r []) eqn:E; [|discriminate].
    intros _. eapply match_at_occurs; eauto.
  - destruct (match_at r (c :: x)) eqn:E.
    + intros _. eapply match_at_occurs; eauto.
    + destruct (search r x) as [[j m']|] eqn:Es; [|discriminate].
      intros _. apply occurs_cons. eapply IH; eauto.
Qed.

(** [re.search] finds a match exactly when the text contains an occurrence. *)
Lemma search_none_iff r x : search r x = None <-> ~ occurs r x.
Proof.
  split.
  - induction x as [|c x IH]; simpl.
    + destruct (match_at r []) eqn:E; [discriminate|].
      intros _ (pre & w & post & Hx & Hl).
      destruct pre; [|discriminate]. destruct w; [|discriminate].
      eapply (@match_at_complete r [] []); eauto.
    + destruct (match_at r (c :: x)) eqn:E; [discriminate|].
      destruct (search r x) as [[j m']|] eqn:Es; [discriminate|].
      intros _ Ho. apply IH; auto. eapply occurs_tail; eauto.
  - intros H. destruct (search r x) as [[i m]|] eqn:E; auto.
    exfalso. apply H. eapply search_some_occurs; eauto.
Qed.

Lemma clean_suffix r x :
  ~ occurs r x -> forall a b, x = a ++ b -> match_at r b = None.
Proof.
  intros H a b ->. destruct (match_at r b) as [m|] eqn:E; auto.
  exfalso. apply H.
  destruct (match_at_sound _ _ E) as (w & rest & -> & _ & Hl).
  now exists a, w, rest.
Qed.

(** *** [re.sub] *)

Lemma sub_no_match r rp x :
  (forall a b, x = a ++ b -> match_at r b = None) -> sub r rp x = x.
Proof.
  unfold sub. induction x as [|c x IH]; intros H; simpl.
  - now rewrite (H [] [] eq_refl).
  - rewrite (H [] (c :: x) eq_refl). f_equal. apply IH.
    intros a b ->. now apply (H (c :: a) b).
Qed.

(** A text without occurrence of the pattern is returned as it is. *)
Lemma sub_clean r rp x : ~ occurs r x -> sub r rp x = x.
Proof.
  intros H. apply sub_no_match. now apply clean_suffix.
Qed.

Lemma sub_loop_skip r rp a : forall s,
  sub_loop r rp (a ++ s) (length a) = sub_loop r rp s 0.
Proof.
  induction a as [|c a IH]; intros s; simpl; auto.
Qed.

(** A non-empty match at the head is replaced, and the scan goes on after
    it. *)
Lemma sub_match_head r rp w rest m :
  match_at r (w ++ rest) = Some m ->
  m_end m = length w ->
  w <> [] ->
  sub r rp (w ++ rest) = expand rp (w ++ rest) m ++ sub r rp rest.
Proof.
  intros Hm He Hw. unfold sub. destruct w as [|c w]; [congruence|].
  simpl app in *. simpl. rewrite Hm, He. simpl.
  now rewrite sub_loop_skip.
Qed.

(** The scan copies a prefix in which no match starts. *)
Lemma sub_clear_before r rp pre : forall tail,
  clear_before r pre tail = true ->
  sub r rp (pre ++ tail) = pre ++ sub r rp tail.
Proof.
  unfold sub. induction pre as [|c pre IH]; intros tail H; simpl in *; auto.
  destruct (match_at r (c :: pre ++ tail)); [discriminate|].
  f_equal. auto.
Qed.

End ReFacts.

(* ================================================================= *)
(** ** The scripts as programs: errors and determinism *)

Module ScriptFacts.
Import Os.
Import Texts.

(** What a script does to a world, whatever its rewriting function. *)
Section OneScript.

Variable rules : str -> str.
Variable msg : str.

Let script : io unit :=
  content <- read_text target ;;
  write_text target (rules content) ;;;
  print msg.

Lemma script_fails w :
  accessible target w = false -> exists err, script w = (inl err, w).
Proof.
  unfold accessible, script, bind, read_text, write_text.
  destruct (disk w target) as [f|] eqn:D.
  - destruct (readable f) eqn:Hr; simpl.
    + intros Hw. rewrite D, Hw. now exists PermissionError.
    + intros _. now exists PermissionError.
  - intros _. now exists FileNotFoundError.
Qed.

Lemma update_same d p f : update d p f p = Some f.
Proof. unfold update. now rewrite String.eqb_refl. Qed.

Lemma script_runs w f :
  disk w target = Some f -> readable f = true -> writable f = true ->
  fst (script w) = inr tt /\
  text_at target (snd (script w)) = Some (rules (universal_newlines (data f))) /\
  stdout (snd (script w)) = stdout w ++ [msg].
Proof.
  intros D Hr Hw. unfold script, bind, read_text, write_text, print, text_at.
  rewrite D, Hr. cbn [fst snd disk stdout]. rewrite D, Hw.
  cbn [fst snd disk stdout option_map]. rewrite update_same. auto.
Qed.

End OneScript.

Lemma accessible_inv w :
  accessible target w = true ->
  exists f, disk w target = Some f /\ readable f = true /\ writable f = true.
Proof.
  unfold accessible. destruct (disk w target) as [f|]; [|discriminate].
  intros H. apply andb_prop in H. now exists f.
Qed.

(** C9: a script fails with an operating-system error whenever its file is
    missing, unreadable or unwritable; the error is the result of the whole
    script, and the world is left as it was: nothing is written, nothing is
    printed. *)
Theorem io_error_propagates w :
  accessible target w = false ->
  (exists err, FixComparisonTests.main w = (inl err, w)) /\
  (exists err, FixCacheStats.main w = (inl err, w)).
Proof.
  intros H. split.
  - apply (script_fails FixComparisonTests.rewrite _ w H).
  - apply (script_fails FixCacheStats.rewrite _ w H).
Qed.

Lemma io_error_propagates_witness :
  (exists err, FixComparisonTests.main read_only_world = (inl err, read_only_world)) /\
  (exists err, FixCacheStats.main read_only_world = (inl err, read_only_world)).
Proof.
  apply (@io_error_propagates read_only_world). reflexivity.
Defined.

(** C8: the text a script leaves in its file is a function of the text it
    found there: two runs from worlds that agree on that text (and may differ
    in everything else) end with the same text, and both succeed. *)
Theorem main_deterministic w1 w2 :
  accessible target w1 = true ->
  accessible target w2 = true ->
  text_at target w1 = text_at target w2 ->
  (fst (FixComparisonTests.main w1) = fst (FixComparisonTests.main w2) /\
   text_at target (snd (FixComparisonTests.main w1)) =
   text_at target (snd (FixComparisonTests.main w2))) /\
  (fst (FixCacheStats.main w1) = fst (FixCacheStats.main w2) /\
   text_at target (snd (FixCacheStats.main w1)) =
   text_at target (snd (FixCacheStats.main w2))).
Proof.
  intros A1 A2 T.
  destruct (accessible_inv _ A1) as (f1 & D1 & R1 & W1).
  destruct (accessible_inv _ A2) as (f2 & D2 & R2 & W2).
  assert (E : data f1 = data f2).
  { unfold text_at in T. rewrite D1, D2 in T. simpl in T. congruence. }
  split.
  - destruct (script_runs FixComparisonTests.rewrite
                (txt "Fixed duplicate properties in comparison optimizer test file")
                w1 D1 R1 W1) as (F1 & T1 & _).
    destruct (script_runs FixComparisonTests.rewrite
                (txt "Fixed duplicate properties in comparison optimizer test file")
                w2 D2 R2 W2) as (F2 & T2 & _).
    unfold FixComparisonTests.main. rewrite F1, F2, T1, T2, E. auto.
  - destruct (script_runs FixCacheStats.rewrite
                (txt "Fixed CacheStats objects and removed frequency properties")
                w1 D1 R1 W1) as (F1 & T1 & _).
    destruct (script_runs FixCacheStats.rewrite
                (txt "Fixed CacheStats objects and removed frequency properties")
                w2 D2 R2 W2) as (F2 & T2 & _).
    unfold FixCacheStats.main. rewrite F1, F2, T1, T2, E. auto.
Qed.

Lemma main_deterministic_witness :
  (fst (FixComparisonTests.main quiet_world) = fst (FixComparisonTests.main noisy_world) /\
   text_at target (snd (FixComparisonTests.main quiet_world)) =
   text_at target (snd (FixComparisonTests.main noisy_world))) /\
  (fst (FixCacheStats.main quiet_world) = fst (FixCacheStats.main noisy_world) /\
   text_at target (snd (FixCacheStats.main quiet_world)) =
   text_at target (snd (FixCacheStats.main noisy_world))).
Proof.
  apply (@main_deterministic quiet_world noisy_world); reflexivity.
Defined.

End ScriptFacts.

(* ================================================================= *)
(** ** The words of the patterns of the scripts *)

Module PatternFacts.
Import Re ReFacts.
Import Texts.

(** *** The patterns are those of the source *)

(** Each pattern above is what [re.compile] reads from the raw string of
    the script.  The flag [re.DOTALL] of three of the calls changes what an
    unescaped dot matches, and no pattern has one. *)
Example cacheMisses_pat_source :
  compile "(cacheMisses: \d+,)\s*\n\s*cacheMisses: \d+,"
  = Some FixComparisonTests.cacheMisses_pat.
Proof. reflexivity. Qed.

Example unitBreakdown_pat_source :
  compile "(unitBreakdown: \{[^}]+\}),?\s*\n\s*unitBreakdown: \{[^}]+\}"
  = Some FixComparisonTests.unitBreakdown_pat.
Proof. reflexivity. Qed.

Example brace_comma_pat_source :
  compile "},\s*}" = Some FixComparisonTests.brace_comma_pat.
Proof. reflexivity. Qed.

Example const_pat_source :
  compile "const \w+: CacheStats = \{[^}]+\};" = Some FixCacheStats.const_pat.
Proof. reflexivity. Qed.

Example inline_pat_source :
  compile "(\w+: CacheStats = )\{[^}]+\}" = Some FixCacheStats.inline_pat.
Proof. reflexivity. Qed.

Example frequency_pat_source :
  compile "frequency: [0-9.]+,\s*\n" = Some FixCacheStats.frequency_pat.
Proof. reflexivity. Qed.

(** Syntax outside the fragment is refused, not misread. *)
Example compile_refuses :
  compile "a+?" = None /\ compile "(?:a)" = None /\ compile "(a)+" = None /\
  compile "a.b" = None /\ compile "[\d-z]" = None /\ compile "(a" = None.
Proof. repeat split. Qed.

(** *** Words of a sequence of atoms *)

Lemma lang_app r1 : forall r2 w,
  lang (r1 ++ r2) w <-> exists w1 w2, w = w1 ++ w2 /\ lang r1 w1 /\ lang r2 w2.
Proof.
  induction r1 as [|a r1 IH]; intros r2 w; simpl.
  - split.
    + intros H. now exists [], w.
    + intros (w1 & w2 & -> & -> & H). exact H.
  - split.
    + intros (u & v & -> & Ha & Hv). apply IH in Hv.
      destruct Hv as (v1 & v2 & -> & H1 & H2).
      exists (u ++ v1), v2. rewrite app_assoc. repeat split; auto.
      now exists u, v1.
    + intros (w1 & w2 & -> & (u & v & -> & Ha & Hv) & H2).
      exists u, (v ++ w2). rewrite app_assoc. repeat split; auto.
      apply IH. now exists v, w2.
Qed.

Lemma in_cset_char d c : in_cset (CChar d) c <-> c = d.
Proof.
  unfold in_cset. cbn [cset_mem]. rewrite Ascii.eqb_eq. split; congruence.
Qed.

Lemma lang_lits l : forall w, lang (lits l) w <-> w = l.
Proof.
  induction l as [|c l IH]; intros w; simpl; [tauto|].
  split.
  - intros (u & v & -> & (d & -> & Hd) & Hv). apply IH in Hv. subst v.
    apply in_cset_char in Hd. now subst.
  - intros ->. exists [c], l. repeat split; [|now apply IH].
    exists c. split; auto. now apply in_cset_char.
Qed.

Lemma lang_lit l w : lang (lit l) w <-> w = txt l.
Proof. apply lang_lits. Qed.

Lemma lang_one cs r w :
  lang (One cs :: r) w <-> exists c v, w = c :: v /\ in_cset cs c /\ lang r v.
Proof.
  simpl. split.
  - intros (u & v & -> & (c & -> & Hc) & Hv). now exists c, v.
  - intros (c & v & -> & Hc & Hv). exists [c], v. repeat split; auto. now exists c.
Qed.

Lemma lang_mark_open g r w : lang (GOpen g :: r) w <-> lang r w.
Proof.
  simpl. split.
  - intros (u & v & -> & -> & Hv). exact Hv.
  - intros H. now exists [], w.
Qed.

Lemma lang_mark_close g r w : lang (GClose g :: r) w <-> lang r w.
Proof.
  simpl. split.
  - intros (u & v & -> & -> & Hv). exact Hv.
  - intros H. now exists [], w.
Qed.

(** The words of [const \w+: CacheStats = \{[^}]+\};]. *)
Lemma lang_const_pat w :
  lang FixCacheStats.const_pat w <->
  exists name body,
    w = txt "const " ++ name ++ txt ": CacheStats = {" ++ body ++ txt "};" /\
    name <> [] /\ Forall word_char name /\ body <> [] /\ Forall no_brace body.
Proof.
  unfold FixCacheStats.const_pat. split.
  - intros H. apply lang_app in H. destruct H as (w1 & w2 & -> & H1 & H).
    apply lang_lit in H1. subst w1.
    apply lang_app in H. destruct H as (name & w3 & -> & Hn & H).
    simpl in Hn. destruct Hn as (n1 & n2 & -> & [Hne Hn] & ->).
    rewrite app_nil_r.
    apply lang_app in H. destruct H as (w4 & w5 & -> & H4 & H).
    apply lang_lit in H4. subst w4.
    simpl in H. destruct H as (body & w6 & -> & [Hbe Hb] & H).
    destruct H as (b1 & w7 & -> & (c1 & -> & Hc1) & H).
    destruct H as (b2 & w8 & -> & (c2 & -> & Hc2) & ->).
    apply in_cset_char in Hc1, Hc2. subst.
    exists n1, body. repeat split; auto.
  - intros (name & body & -> & Hne & Hn & Hbe & Hb).
    apply lang_app. exists (txt "const "), (name ++ txt ": CacheStats = {" ++ body ++ txt "};").
    repeat split; [now apply lang_lit|].
    apply lang_app. exists name, (txt ": CacheStats = {" ++ body ++ txt "};").
    repeat split.
    + simpl. exists name, []. rewrite app_nil_r. auto.
    + apply lang_app. exists (txt ": CacheStats = {"), (body ++ txt "};").
      repeat split; [now apply lang_lit|].
      simpl. exists body, (txt "};"). repeat split; auto.
      exists ["}"%char], [";"%char]. repeat split.
      * now exists "}"%char.
      * exists [";"%char], []. repeat split. now exists ";"%char.
Qed.

(** The words of [(\w+: CacheStats = )\{[^}]+\}]. *)
Lemma lang_inline_pat w :
  lang FixCacheStats.inline_pat w <->
  exists name body,
    w = name ++ txt ": CacheStats = " ++ txt "{" ++ body ++ txt "}" /\
    name <> [] /\ Forall word_char name /\ body <> [] /\ Forall no_brace body.
Proof.
  unfold FixCacheStats.inline_pat. split.
  - intros H. change ([GOpen 1; Plus CWord] ++ ?r) with (GOpen 1 :: Plus CWord :: r) in H.
    apply lang_mark_open in H.
    destruct H as (name & w3 & -> & [Hne Hn] & H).
    apply lang_app in H. destruct H as (w4 & w5 & -> & H4 & H).
    apply lang_lit in H4. subst w4.
    apply lang_mark_close in H.
    apply lang_one in H. destruct H as (c0 & v & -> & Hc0 & H).
    destruct H as (body & w6 & -> & [Hbe Hb] & H).
    destruct H as (b1 & w7 & -> & (c1 & -> & Hc1) & ->).
    apply in_cset_char in Hc0, Hc1. subst.
    exists name, body. repeat split; auto.
  - intros (name & body & -> & Hne & Hn & Hbe & Hb).
    change ([GOpen 1; Plus CWord] ++ ?r) with (GOpen 1 :: Plus CWord :: r).
    apply lang_mark_open.
    exists name, (txt ": CacheStats = " ++ txt "{" ++ body ++ txt "}").
    repeat split; auto.
    apply lang_app. exists (txt ": CacheStats = "), (txt "{" ++ body ++ txt "}").
    repeat split; [now apply lang_lit|].
    apply lang_mark_close. apply lang_one.
    exists "{"%char, (body ++ txt "}"). repeat split.
    exists body, (txt "}"). repeat split; auto.
    exists ["}"%char], []. repeat split. now exists "}"%char.
Qed.

(** Every declaration the first substitution of [fix_cache_stats.py] looks
    for contains one the second looks for. *)
Lemma const_occurs_inline x :
  occurs FixCacheStats.const_pat x -> occurs FixCacheStats.inline_pat x.
Proof.
  intros (pre & w & post & -> & H).
  apply lang_const_pat in H. destruct H as (name & body & -> & Hne & Hn & Hbe & Hb).
  exists (pre ++ txt "const "),
         (name ++ txt ": CacheStats = " ++ txt "{" ++ body ++ txt "}"),
         (txt ";" ++ post).
  split.
  - repeat (rewrite <- app_assoc; simpl). reflexivity.
  - apply lang_inline_pat. now exists name, body.
Qed.

End PatternFacts.

(* ================================================================= *)
(** ** Clean input and repeated runs *)

Module PipelineFacts.
Import Re ReFacts PatternFacts.
Import Texts.

Lemma cleanb_clean x : cleanb x = true -> clean x.
Proof.
  unfold cleanb, clean. rewrite forallb_forall. intros H r Hr.
  specialize (H r Hr). apply search_none_iff.
  destruct (search r x); [discriminate|reflexivity].
Qed.

Lemma rewrite_comparison_clean x : clean x -> FixComparisonTests.rewrite x = x.
Proof.
  intros H. unfold FixComparisonTests.rewrite, FixComparisonTests.dedup_cacheMisses,
    FixComparisonTests.dedup_unitBreakdown, FixComparisonTests.fix_braces.
  rewrite (@sub_clean FixComparisonTests.cacheMisses_pat) by (apply H; simpl; auto).
  rewrite (@sub_clean FixComparisonTests.unitBreakdown_pat) by (apply H; simpl; auto).
  apply sub_clean. apply H; simpl; auto.
Qed.

Lemma rewrite_cache_stats_clean x : clean x -> FixCacheStats.rewrite x = x.
Proof.
  intros H. unfold FixCacheStats.rewrite, FixCacheStats.replace_const,
    FixCacheStats.replace_inline, FixCacheStats.strip_frequency.
  assert (Hi : ~ occurs FixCacheStats.inline_pat x) by (apply H; simpl; auto).
  rewrite (@sub_clean FixCacheStats.const_pat)
    by (intros Hc; apply Hi; now apply const_occurs_inline).
  rewrite (@sub_clean FixCacheStats.inline_pat) by exact Hi.
  apply sub_clean. apply H; simpl; auto 6.
Qed.

(** C2: on a text that contains no occurrence of any of the five target
    patterns, each script's rule sequence returns the text unchanged. *)
Theorem rewrite_noop_on_clean x :
  clean x ->
  FixComparisonTests.rewrite x = x /\ FixCacheStats.rewrite x = x.
Proof.
  intros H. split.
  - now apply rewrite_comparison_clean.
  - now apply rewrite_cache_stats_clean.
Qed.

Lemma rewrite_noop_on_clean_witness :
  FixComparisonTests.rewrite tidy_text = tidy_text /\
  FixCacheStats.rewrite tidy_text = tidy_text.
Proof.
  apply (@rewrite_noop_on_clean tidy_text).
  apply cleanb_clean. vm_compute. reflexivity.
Defined.

(** C1, as stated, fails: neither rule sequence is idempotent on every
    input. *)
Lemma rewrite_not_idempotent :
  FixComparisonTests.rewrite (FixComparisonTests.rewrite three_cacheMisses)
    <> FixComparisonTests.rewrite three_cacheMisses /\
  FixCacheStats.rewrite (FixCacheStats.rewrite nested_frequency)
    <> FixCacheStats.rewrite nested_frequency.
Proof.
  split; vm_compute; discriminate.
Qed.

(** C1, amended: on a text already free of the five target patterns, running
    a rule sequence twice gives what running it once gives. *)
Theorem rewrite_idempotent_on_clean x :
  clean x ->
  FixComparisonTests.rewrite (FixComparisonTests.rewrite x)
    = FixComparisonTests.rewrite x /\
  FixCacheStats.rewrite (FixCacheStats.rewrite x) = FixCacheStats.rewrite x.
Proof.
  intros H.
  rewrite (rewrite_comparison_clean H), (rewrite_cache_stats_clean H).
  rewrite (rewrite_comparison_clean H), (rewrite_cache_stats_clean H).
  split; reflexivity.
Qed.

Lemma rewrite_idempotent_on_clean_witness :
  FixComparisonTests.rewrite (FixComparisonTests.rewrite tidy_text)
    = FixComparisonTests.rewrite tidy_text /\
  FixCacheStats.rewrite (FixCacheStats.rewrite tidy_text)
    = FixCacheStats.rewrite tidy_text.
Proof.
  apply (@rewrite_idempotent_on_clean tidy_text).
  apply cleanb_clean. vm_compute. reflexivity.
Defined.

End PipelineFacts.

(* ================================================================= *)
(** ** Running a pattern on a text of known shape *)

Module RunFacts.
Import Re ReFacts.
Import Texts.

Lemma run_one cs r c s n e :
  cset_mem cs c = true -> run (One cs :: r) (c :: s) n e = run r s (S n) e.
Proof. intros H. cbn [run]. now rewrite H. Qed.

Lemma run_one_inv cs r s n e x :
  run (One cs :: r) s n e = Some x ->
  exists c s', s = c :: s' /\ in_cset cs c /\ run r s' (S n) e = Some x.
Proof.
  cbn [run]. destruct s as [|c s]; [discriminate|].
  destruct (cset_mem cs c) eqn:Hc; [|discriminate].
  intros H. now exists c, s.
Qed.

Lemma run_char_inv d r s n e x :
  run (One (CChar d) :: r) s n e = Some x ->
  exists s', s = d :: s' /\ run r s' (S n) e = Some x.
Proof.
  intros H. apply run_one_inv in H. destruct H as (c & s' & -> & Hc & H).
  unfold in_cset in Hc. cbn [cset_mem] in Hc. apply Ascii.eqb_eq in Hc.
  subst c. now exists s'.
Qed.

Lemma run_lit_inv l r s n e x :
  run (lit l ++ r) s n e = Some x ->
  exists s', s = txt l ++ s' /\ run r s' (n + length (txt l)) e = Some x.
Proof. apply run_lits_inv. Qed.

Lemma run_plus_inv cs r s n e x :
  run (Plus cs :: r) s n e = Some x ->
  exists w s', s = w ++ s' /\ w <> [] /\ Forall (in_cset cs) w /\
               run r s' (n + length w) e = Some x.
Proof.
  cbn [run]. destruct s as [|c s]; [discriminate|].
  destruct (cset_mem cs c) eqn:Hc; [|discriminate].
  intros H. apply star_sound in H. destruct H as (w & s' & -> & Hw & H).
  exists (c :: w), s'. repeat split; auto; try discriminate.
  simpl. now rewrite Nat.add_succ_r.
Qed.

Lemma run_star_inv cs r s n e x :
  run (Star cs :: r) s n e = Some x ->
  exists w s', s = w ++ s' /\ Forall (in_cset cs) w /\
               run r s' (n + length w) e = Some x.
Proof. cbn [run]. apply star_sound. Qed.

(** A greedy [+] takes the whole run when the rest of the pattern accepts
    what follows it. *)
Lemma run_plus_greedy cs r w s' n e x :
  w <> [] ->
  Forall (in_cset cs) w ->
  head_is (fun c => cset_mem cs c = false) s' ->
  run r s' (n + length w) e = Some x ->
  run (Plus cs :: r) (w ++ s') n e = Some x.
Proof.
  intros Hne Hw Hs Hr. destruct w as [|c w]; [congruence|].
  inversion Hw as [|? ? Hc Hw']; subst. unfold in_cset in Hc.
  cbn [run app]. rewrite Hc.
  apply star_greedy; auto. simpl in Hr. now rewrite Nat.add_succ_r in Hr.
Qed.

Lemma run_star_greedy cs r w s' n e x :
  Forall (in_cset cs) w ->
  head_is (fun c => cset_mem cs c = false) s' ->
  run r s' (n + length w) e = Some x ->
  run (Star cs :: r) (w ++ s') n e = Some x.
Proof. intros. cbn [run]. now apply star_greedy. Qed.

(** [x*] followed by a character [d] of the class [x]: the repetition is
    cut back to the last [d] of the run. *)
Lemma run_star_then_char cs d r w1 w2 s' n e x :
  cset_mem cs d = true ->
  Forall (in_cset cs) w1 ->
  Forall (fun c => c <> d) w2 ->
  head_is (fun c => c <> d /\ cset_mem cs c = false) s' ->
  run r (w2 ++ s') (S (n + length w1)) e = Some x ->
  run (Star cs :: One (CChar d) :: r) (w1 ++ d :: w2 ++ s') n e = Some x.
Proof.
  intros Hd H1 H2 Hs Hr. cbn [run]. apply star_app_some; auto.
  cbn [star]. rewrite Hd.
  rewrite (@star_none _ cs _ (fun c => c <> d)); auto.
  - cbn [cset_mem]. now rewrite Ascii.eqb_refl.
  - intros t m Ht. destruct t as [|c t]; auto. simpl in Ht.
    cbn [cset_mem]. destruct (Ascii.eqb d c) eqn:E; auto.
    apply Ascii.eqb_eq in E. congruence.
Qed.

Lemma run_opt_take cs r c s n e x :
  cset_mem cs c = true ->
  run r s (S n) e = Some x ->
  run (Opt cs :: r) (c :: s) n e = Some x.
Proof. intros Hc Hr. cbn [run]. now rewrite Hc, Hr. Qed.

Lemma run_opt_skip cs r s n e :
  head_is (fun c => cset_mem cs c = false) s ->
  run (Opt cs :: r) s n e = run r s n e.
Proof.
  destruct s as [|c s]; cbn [run]; auto. simpl. now intros ->.
Qed.

(** The pattern fails at once on a text whose first character its first
    atom refuses. *)
Lemma match_at_first_one cs r c t :
  cset_mem cs c = false -> match_at (One cs :: r) (c :: t) = None.
Proof. intros H. unfold match_at. cbn [run]. now rewrite H. Qed.

Lemma match_at_first_group_one g cs r c t :
  cset_mem cs c = false -> match_at (GOpen g :: One cs :: r) (c :: t) = None.
Proof. intros H. unfold match_at. cbn [run]. now rewrite H. Qed.

Lemma match_at_first_group_plus g cs r c t :
  cset_mem cs c = false -> match_at (GOpen g :: Plus cs :: r) (c :: t) = None.
Proof. intros H. unfold match_at. cbn [run]. now rewrite H. Qed.

(** No match starts in a prefix all of whose characters the pattern refuses
    as a first character. *)
Lemma clear_before_refused r pre tail :
  (forall c t, In c pre -> match_at r (c :: t) = None) ->
  clear_before r pre tail = true.
Proof.
  induction pre as [|c pre IH]; intros H; simpl; auto.
  rewrite H by (simpl; auto). apply IH. intros d t Hd. apply H. simpl; auto.
Qed.

(** [re.sub] keeps the first character of a text when each replacement
    starts with the first character of what it replaces. *)
Lemma sub_keeps_head r rp :
  (forall s m, match_at r s = Some m -> hd_error (expand rp s m) = hd_error s) ->
  forall s, hd_error (sub r rp s) = hd_error s.
Proof.
  intros H s. unfold sub. destruct s as [|c s]; simpl.
  - destruct (match_at r []) as [m|] eqn:E; auto.
    specialize (H _ _ E). simpl in H.
    destruct (expand rp [] m); [reflexivity|discriminate].
  - destruct (match_at r (c :: s)) as [m|] eqn:E; auto.
    specialize (H _ _ E). simpl in H.
    destruct (expand rp (c :: s) m); [discriminate|exact H].
Qed.

Lemma firstn_length_app {A : Type} (w rest : list A) :
  firstn (length w) (w ++ rest) = w.
Proof.
  rewrite firstn_app, Nat.sub_diag, firstn_all. simpl. apply app_nil_r.
Qed.

End RunFacts.

(* ================================================================= *)
(** ** [fix_cache_stats.py]: the declarations it rewrites *)

Module CacheStatsFacts.
Import Re ReFacts PatternFacts RunFacts FixCacheStats.
Import Texts.

Lemma run_gopen g r s n e :
  run (GOpen g :: r) s n e = run r s n (open_group g n e).
Proof. reflexivity. Qed.

Lemma run_gclose g r s n e :
  run (GClose g :: r) s n e = run r s n (close_group g n e).
Proof. reflexivity. Qed.

Lemma run_nil s n e : run [] s n e = Some (n, e).
Proof. reflexivity. Qed.

Lemma const_decl_length name body :
  length (const_decl name body) = 24 + length name + length body.
Proof.
  unfold const_decl. repeat rewrite length_app. simpl. lia.
Qed.

Lemma inline_decl_length name body :
  length (inline_decl name body) = 17 + length name + length body.
Proof.
  unfold inline_decl. repeat rewrite length_app. simpl. lia.
Qed.

Lemma const_run name body rest :
  name <> [] -> Forall word_char name ->
  body <> [] -> Forall no_brace body ->
  run const_pat (const_decl name body ++ rest) 0 env0
  = Some (length (const_decl name body), env0).
Proof.
  intros Hne Hn Hbe Hb. rewrite const_decl_length.
  unfold const_decl, const_pat.
  repeat rewrite <- app_assoc.
  rewrite run_lit. cbn [app].
  apply run_plus_greedy; auto; [vm_compute; reflexivity|].
  rewrite run_lit.
  apply run_plus_greedy; auto; [vm_compute; reflexivity|].
  change (txt "};" ++ rest) with ("}"%char :: ";"%char :: rest).
  rewrite !run_one by reflexivity. rewrite run_nil.
  simpl String.length. do 2 f_equal. lia.
Qed.

(** The first substitution matches a [const] declaration in full. *)
Lemma const_match name body rest :
  name <> [] -> Forall word_char name ->
  body <> [] -> Forall no_brace body ->
  match_at const_pat (const_decl name body ++ rest)
  = Some (MkMatch (length (const_decl name body)) []).
Proof.
  intros. unfold match_at. now rewrite const_run.
Qed.

Lemma inline_run name body rest :
  name <> [] -> Forall word_char name ->
  body <> [] -> Forall no_brace body ->
  run inline_pat (inline_decl name body ++ rest) 0 env0
  = Some (length (inline_decl name body),
          MkEnv [(1, 0)] [(1, (0, length name + 15))]).
Proof.
  intros Hne Hn Hbe Hb. rewrite inline_decl_length.
  unfold inline_decl, inline_pat.
  repeat rewrite <- app_assoc.
  cbn [app]. rewrite run_gopen.
  apply run_plus_greedy; auto; [vm_compute; reflexivity|].
  rewrite run_lit, run_gclose.
  change (txt "{" ++ body ++ txt "}" ++ rest) with ("{"%char :: body ++ "}"%char :: rest).
  rewrite run_one by reflexivity.
  apply run_plus_greedy; auto; [vm_compute; reflexivity|].
  rewrite run_one by reflexivity. rewrite run_nil.
  simpl String.length. unfold close_group, open_group. simpl.
  do 2 f_equal. lia.
Qed.

(** The second substitution matches an annotated object literal in full;
    its group 1 runs up to the opening brace. *)
Lemma inline_match name body rest :
  name <> [] -> Forall word_char name ->
  body <> [] -> Forall no_brace body ->
  match_at inline_pat (inline_decl name body ++ rest)
  = Some (MkMatch (length (inline_decl name body)) [(1, (0, length name + 15))]).
Proof.
  intros. unfold match_at. now rewrite inline_run.
Qed.

(** Every match of the first substitution is a [const] declaration. *)
Lemma const_match_inv s m :
  match_at const_pat s = Some m ->
  exists name body rest,
    s = const_decl name body ++ rest /\
    name <> [] /\ Forall word_char name /\ body <> [] /\ Forall no_brace body /\
    m_end m = length (const_decl name body).
Proof.
  intros H. destruct (match_at_sound _ _ H) as (w & rest & -> & He & Hl).
  apply lang_const_pat in Hl.
  destruct Hl as (name & body & -> & Hne & Hn & Hbe & Hb).
  exists name, body, rest. repeat split; auto.
Qed.

(** Every match of the second substitution is an annotated object literal,
    with the group the forward lemma gives. *)
Lemma inline_match_inv s m :
  match_at inline_pat s = Some m ->
  exists name body rest,
    s = inline_decl name body ++ rest /\
    name <> [] /\ Forall word_char name /\ body <> [] /\ Forall no_brace body /\
    m = MkMatch (length (inline_decl name body)) [(1, (0, length name + 15))].
Proof.
  unfold match_at. destruct (run inline_pat s 0 env0) as [[n e]|] eqn:H; [|discriminate].
  intros [= <-]. unfold inline_pat in H. cbn [app] in H. rewrite run_gopen in H.
  apply run_plus_inv in H. destruct H as (name & s1 & -> & Hne & Hn & H).
  apply run_lit_inv in H. destruct H as (s2 & -> & H).
  rewrite run_gclose in H.
  apply run_char_inv in H. destruct H as (s3 & -> & H).
  apply run_plus_inv in H. destruct H as (body & s4 & -> & Hbe & Hb & H).
  apply run_char_inv in H. destruct H as (rest & -> & H).
  rewrite run_nil in H. injection H as <- <-.
  exists name, body, rest. rewrite inline_decl_length.
  unfold inline_decl. repeat rewrite <- app_assoc.
  repeat split; auto.
  unfold close_group, open_group. simpl. do 2 f_equal; lia.
Qed.

(** *** What stands before the first [=] *)

Lemma split_head_app sep p x :
  Forall (fun c => Ascii.eqb c sep = false) p ->
  split_head sep (p ++ x) = p ++ split_head sep x.
Proof.
  induction 1 as [|c p Hc Hp IH]; simpl; auto. now rewrite Hc, IH.
Qed.

Lemma word_not_eq_sign c : word_char c -> Ascii.eqb c "=" = false.
Proof.
  intros Hc. destruct (Ascii.eqb c "=") eqn:E; auto.
  apply Ascii.eqb_eq in E. subst c. vm_compute in Hc. discriminate.
Qed.

Lemma split_head_word name x :
  Forall word_char name ->
  split_head "=" (name ++ x) = name ++ split_head "=" x.
Proof.
  intros H. apply split_head_app.
  eapply Forall_impl; [|exact H]. apply word_not_eq_sign.
Qed.

Lemma split_head_const_decl name body :
  Forall word_char name ->
  split_head "=" (const_decl name body) = txt "const " ++ name ++ txt ": CacheStats ".
Proof.
  intros H. unfold const_decl.
  rewrite (@split_head_app "=" (txt "const ")) by (repeat constructor).
  rewrite split_head_word by exact H. reflexivity.
Qed.

Lemma split_head_inline_decl name body :
  Forall word_char name ->
  split_head "=" (inline_decl name body) = name ++ txt ": CacheStats ".
Proof.
  intros H. unfold inline_decl. rewrite split_head_word by exact H. reflexivity.
Qed.

Lemma inline_group1 name body rest :
  slice (inline_decl name body ++ rest) 0 (length name + 15)
  = name ++ txt ": CacheStats = ".
Proof.
  unfold slice, inline_decl. rewrite Nat.sub_0_r. cbn [skipn].
  replace (length name + 15) with (length (name ++ txt ": CacheStats = "))
    by (rewrite length_app; reflexivity).
  repeat rewrite <- app_assoc.
  rewrite (app_assoc name). apply firstn_length_app.
Qed.

(** C10: in every replacement of a [CacheStats] declaration, by the first
    substitution as by the second, the text of the match before its first
    [=] (the [const] keyword if any, the name and the [: CacheStats]
    annotation) is the start of the replacement, which goes on with [= ] and
    the complete literal. *)
Theorem declaration_head_preserved :
  (forall s m, match_at const_pat s = Some m ->
     exists name, name <> [] /\ Forall word_char name /\
       split_head "=" (group s m 0) = txt "const " ++ name ++ txt ": CacheStats " /\
       expand (Callable const_repl) s m
       = split_head "=" (group s m 0) ++ txt "= " ++ complete_cache_stats ++ txt ";") /\
  (forall s m, match_at inline_pat s = Some m ->
     exists name, name <> [] /\ Forall word_char name /\
       split_head "=" (group s m 0) = name ++ txt ": CacheStats " /\
       expand inline_repl s m
       = split_head "=" (group s m 0) ++ txt "= " ++ complete_cache_stats).
Proof.
  split; intros s m H.
  - destruct (const_match_inv _ H) as (name & body & rest & -> & Hne & Hn & _ & _ & He).
    exists name. repeat split; auto.
    cbn [group]. rewrite He, firstn_length_app. now apply split_head_const_decl.
  - destruct (inline_match_inv _ H) as (name & body & rest & -> & Hne & Hn & _ & _ & ->).
    exists name. repeat split; auto.
    + cbn [group m_end]. rewrite firstn_length_app. now apply split_head_inline_decl.
    + cbn [group m_end expand inline_repl expand_template m_spans assoc Nat.eqb].
      rewrite firstn_length_app, inline_group1, split_head_inline_decl by exact Hn.
      rewrite app_nil_r. repeat rewrite <- app_assoc. reflexivity.
Qed.

Lemma declaration_head_preserved_witness :
  (exists name, name <> [] /\ Forall word_char name /\
     split_head "=" (txt "const s: CacheStats = { hits: 1 };")
     = txt "const " ++ name ++ txt ": CacheStats " /\
     const_repl (group (txt "const s: CacheStats = { hits: 1 }; let t = 0;")
                       (MkMatch 34 []))
     = split_head "=" (txt "const s: CacheStats = { hits: 1 };")
       ++ txt "= " ++ complete_cache_stats ++ txt ";") /\
  (exists name, name <> [] /\ Forall word_char name /\
     split_head "=" (txt "stats: CacheStats = { hits: 1 }")
     = name ++ txt ": CacheStats " /\
     expand inline_repl (txt "stats: CacheStats = { hits: 1 },")
            (MkMatch 31 [(1, (0, 20))])
     = split_head "=" (txt "stats: CacheStats = { hits: 1 }")
       ++ txt "= " ++ complete_cache_stats).
Proof.
  split.
  - apply (proj1 declaration_head_preserved
             (txt "const s: CacheStats = { hits: 1 }; let t = 0;") (MkMatch 34 [])).
    reflexivity.
  - apply (proj2 declaration_head_preserved
             (txt "stats: CacheStats = { hits: 1 },") (MkMatch 31 [(1, (0, 20))])).
    reflexivity.
Defined.

(** *** A whole declaration *)

Lemma sub_match_whole r rp w m :
  match_at r w = Some m -> m_end m = length w -> w <> [] ->
  match_at r [] = None ->
  sub r rp w = expand rp w m.
Proof.
  intros Hm He Hw Hnil.
  rewrite <- (app_nil_r w) in Hm |- *.
  rewrite (sub_match_head _ _ _ Hm He Hw).
  unfold sub at 1. simpl. rewrite Hnil. apply app_nil_r.
Qed.

End CacheStatsFacts.

(* ================================================================= *)
(** ** [fix_cache_stats.py]: the [frequency] line *)

Module FrequencyFacts.
Import Re ReFacts PatternFacts RunFacts FixCacheStats CacheStatsFacts.
Import Texts.

Lemma space_not_word c : is_space c = true -> is_word c = false.
Proof.
  destruct c as [[] [] [] [] [] [] [] []]; vm_compute; congruence.
Qed.

Lemma space_not_letter_c c : is_space c = true -> Ascii.eqb "c" c = false.
Proof.
  intros H. destruct (Ascii.eqb "c" c) eqn:E; auto.
  apply Ascii.eqb_eq in E. subst c. vm_compute in H. discriminate.
Qed.

Lemma const_refuses_space c t :
  is_space c = true -> match_at const_pat (c :: t) = None.
Proof.
  intros H.
  exact (@match_at_first_one (CChar "c") _ c t (space_not_letter_c c H)).
Qed.

Lemma inline_refuses_space c t :
  is_space c = true -> match_at inline_pat (c :: t) = None.
Proof.
  intros H.
  exact (@match_at_first_group_plus 1 CWord _ c t (space_not_word c H)).
Qed.

Lemma replace_const_after_space w x :
  Forall space_char w -> replace_const (w ++ x) = w ++ replace_const x.
Proof.
  intros H. apply sub_clear_before. apply clear_before_refused.
  intros c t Hc. apply const_refuses_space.
  rewrite Forall_forall in H. now apply H.
Qed.

Lemma replace_inline_after_space w x :
  Forall space_char w -> replace_inline (w ++ x) = w ++ replace_inline x.
Proof.
  intros H. apply sub_clear_before. apply clear_before_refused.
  intros c t Hc. apply inline_refuses_space.
  rewrite Forall_forall in H. now apply H.
Qed.

(** No declaration starts inside [frequency: 0.5,]. *)
Lemma replace_const_after_field x :
  replace_const (txt "frequency: 0.5," ++ x) = txt "frequency: 0.5," ++ replace_const x.
Proof. apply sub_clear_before. vm_compute. reflexivity. Qed.

Lemma replace_inline_after_field x :
  replace_inline (txt "frequency: 0.5," ++ x) = txt "frequency: 0.5," ++ replace_inline x.
Proof. apply sub_clear_before. vm_compute. reflexivity. Qed.

(** Both declaration substitutions leave the first character of a text in
    place. *)
Lemma replace_const_head s : hd_error (replace_const s) = hd_error s.
Proof.
  apply sub_keeps_head. clear s. intros s m H.
  destruct (const_match_inv _ H) as (name & body & rest & -> & _ & Hn & _ & _ & He).
  unfold expand, const_repl, group. rewrite He, firstn_length_app.
  rewrite split_head_const_decl by exact Hn. reflexivity.
Qed.

Lemma replace_inline_head s : hd_error (replace_inline s) = hd_error s.
Proof.
  apply sub_keeps_head. clear s. intros s m H.
  destruct (inline_match_inv _ H) as (name & body & rest & -> & Hne & _ & _ & _ & ->).
  cbn [expand inline_repl expand_template group m_spans assoc Nat.eqb].
  rewrite inline_group1. destruct name as [|c name]; [congruence|]. reflexivity.
Qed.

Lemma head_is_hd_error P (s s' : str) :
  hd_error s = hd_error s' -> head_is P s -> head_is P s'.
Proof.
  destruct s, s'; simpl; auto; try discriminate. now intros [= ->].
Qed.

Lemma blank_is_space w : Forall blank_char w -> Forall space_char w.
Proof. apply Forall_impl. now intros c [H _]. Qed.

(** The third substitution, at [frequency: 0.5,]: the match runs through
    the last newline of the whitespace that follows the comma. *)
Lemma frequency_run ws1 ws2 rest :
  Forall space_char ws1 ->
  Forall blank_char ws2 ->
  starts_with_text rest ->
  run frequency_pat (txt "frequency: 0.5," ++ ws1 ++ NL :: ws2 ++ rest) 0 env0
  = Some (16 + length ws1, env0).
Proof.
  intros H1 H2 Hr. unfold frequency_pat.
  change (txt "frequency: 0.5," ++ ws1 ++ NL :: ws2 ++ rest)
    with (txt "frequency: " ++ txt "0.5" ++ ","%char :: ws1 ++ NL :: ws2 ++ rest).
  rewrite run_lit.
  apply run_plus_greedy; [discriminate|repeat constructor|reflexivity|].
  rewrite run_one by reflexivity.
  apply run_star_then_char; auto.
  - eapply Forall_impl; [|exact H2]. now intros c [_ Hc].
  - destruct rest as [|c rest]; simpl in *; auto. split; auto.
    intros ->. vm_compute in Hr. discriminate.
Qed.

Lemma frequency_match ws1 ws2 rest :
  Forall space_char ws1 ->
  Forall blank_char ws2 ->
  starts_with_text rest ->
  strip_frequency (txt "frequency: 0.5," ++ ws1 ++ NL :: ws2 ++ rest)
  = strip_frequency (ws2 ++ rest).
Proof.
  intros H1 H2 Hr. unfold strip_frequency.
  pose proof (@frequency_run ws1 ws2 rest H1 H2 Hr) as Hrun.
  replace (txt "frequency: 0.5," ++ ws1 ++ NL :: ws2 ++ rest)
    with ((txt "frequency: 0.5," ++ ws1 ++ [NL]) ++ ws2 ++ rest) in *
    by (repeat rewrite <- app_assoc; reflexivity).
  rewrite (@sub_match_head _ (Template []) _ _ (MkMatch (16 + length ws1) [])).
  - reflexivity.
  - unfold match_at. now rewrite Hrun.
  - simpl. rewrite length_app. simpl. lia.
  - discriminate.
Qed.

(** What the script does with a [frequency: 0.5,] field: it goes, with the
    whitespace after it through the last newline of that whitespace. *)
Lemma frequency_field_removed ws1 ws2 rest :
  Forall space_char ws1 ->
  Forall blank_char ws2 ->
  starts_with_text rest ->
  FixCacheStats.rewrite (txt "frequency: 0.5," ++ ws1 ++ NL :: ws2 ++ rest)
  = FixCacheStats.rewrite (ws2 ++ rest).
Proof.
  intros H1 H2 Hr. pose proof (@blank_is_space ws2 H2) as H2'.
  assert (Hg : Forall space_char (ws1 ++ NL :: ws2)).
  { apply Forall_app. split; auto. constructor; auto. reflexivity. }
  unfold FixCacheStats.rewrite.
  rewrite replace_const_after_field.
  replace (ws1 ++ NL :: ws2 ++ rest) with ((ws1 ++ NL :: ws2) ++ rest)
    by (rewrite <- app_assoc; reflexivity).
  rewrite (@replace_const_after_space _ rest Hg).
  rewrite replace_inline_after_field.
  rewrite (@replace_inline_after_space _ (replace_const rest) Hg).
  rewrite (@replace_const_after_space _ rest H2').
  rewrite (@replace_inline_after_space _ (replace_const rest) H2').
  rewrite <- app_assoc. cbn [app].
  apply frequency_match; auto.
  unfold starts_with_text.
  apply (@head_is_hd_error _ rest); auto.
  now rewrite replace_inline_head, replace_const_head.
Qed.

(** C6, as stated, fails: when a blank line follows, it goes too. *)
Lemma frequency_line_takes_blank_lines :
  FixCacheStats.rewrite (frequency_line ++ NL :: txt "foo") = txt "foo" /\
  FixCacheStats.rewrite (NL :: txt "foo") = NL :: txt "foo" /\
  FixCacheStats.rewrite (frequency_line ++ NL :: txt "foo")
    <> FixCacheStats.rewrite (NL :: txt "foo").
Proof.
  repeat split; vm_compute; try reflexivity. discriminate.
Qed.

(** C6, amended: when the content after the line [frequency: 0.5,] does not
    start with a blank line (its leading whitespace [indent] holds no
    newline), the output is the output for that content alone: the line is
    deleted with its newline, and nothing else. *)
Theorem frequency_line_removed indent rest :
  Forall blank_char indent ->
  starts_with_text rest ->
  FixCacheStats.rewrite (frequency_line ++ indent ++ rest)
  = FixCacheStats.rewrite (indent ++ rest).
Proof.
  intros Hi Hr. unfold frequency_line. rewrite <- app_assoc. cbn [app].
  apply (@frequency_field_removed [] indent rest); auto.
Qed.

Lemma frequency_line_removed_witness :
  FixCacheStats.rewrite (frequency_line ++ txt "  " ++ txt "hits: 1," ++ [NL])
  = FixCacheStats.rewrite (txt "  " ++ txt "hits: 1," ++ [NL]).
Proof.
  apply (@frequency_line_removed (txt "  ") (txt "hits: 1," ++ [NL])).
  - repeat constructor; discriminate.
  - reflexivity.
Defined.

End FrequencyFacts.

(* ================================================================= *)
(** ** [fix_cache_stats.py]: a whole [const] declaration *)

Module LiteralFacts.
Import Re ReFacts PatternFacts RunFacts FixCacheStats CacheStatsFacts.
Import Texts.

Lemma complete_cache_stats_shape :
  complete_cache_stats = txt "{" ++ complete_fields ++ txt "}".
Proof. reflexivity. Qed.

Lemma complete_fields_no_brace :
  complete_fields <> [] /\ Forall no_brace complete_fields.
Proof. split; [discriminate|]. vm_compute. repeat constructor. Qed.

(** The first substitution puts the complete literal in the declaration. *)
Lemma replace_const_decl name fields :
  name <> [] -> Forall word_char name ->
  fields <> [] -> Forall no_brace fields ->
  replace_const (const_decl name fields) = complete_decl name.
Proof.
  intros Hne Hn Hfe Hf. unfold replace_const.
  pose proof (@const_match name fields [] Hne Hn Hfe Hf) as Hm.
  rewrite app_nil_r in Hm.
  rewrite (@sub_match_whole _ (Callable const_repl) _ _ Hm).
  - unfold expand, const_repl, group. cbn [m_end]. rewrite firstn_all.
    rewrite split_head_const_decl by exact Hn.
    unfold complete_decl. repeat rewrite <- app_assoc. reflexivity.
  - reflexivity.
  - unfold const_decl. discriminate.
  - reflexivity.
Qed.

(** The second substitution finds the declaration it has just been given
    and writes the same text again. *)
Lemma replace_inline_complete_decl name :
  name <> [] -> Forall word_char name ->
  replace_inline (complete_decl name) = complete_decl name.
Proof.
  intros Hne Hn. destruct complete_fields_no_brace as [Hfe Hf].
  unfold replace_inline, complete_decl.
  rewrite sub_clear_before by (vm_compute; reflexivity). f_equal.
  rewrite complete_cache_stats_shape at 1.
  replace (name ++ txt ": CacheStats = " ++ (txt "{" ++ complete_fields ++ txt "}") ++ txt ";")
    with (inline_decl name complete_fields ++ txt ";")
    by (unfold inline_decl; repeat rewrite <- app_assoc; reflexivity).
  rewrite (@sub_match_head _ inline_repl _ _ _
             (@inline_match name complete_fields (txt ";") Hne Hn Hfe Hf)).
  - cbn [expand inline_repl expand_template group m_spans assoc Nat.eqb].
    rewrite inline_group1. repeat rewrite <- app_assoc. reflexivity.
  - reflexivity.
  - unfold inline_decl. destruct name; [congruence|discriminate].
Qed.

(** *** No [frequency] field in a declaration *)

(** A text splits in one way into word characters and a first character
    that is not one. *)
Lemma first_nonword_unique u1 : forall u2 c1 c2 (t1 t2 : str),
  Forall word_char u1 -> Forall word_char u2 ->
  is_word c1 = false -> is_word c2 = false ->
  u1 ++ c1 :: t1 = u2 ++ c2 :: t2 ->
  u1 = u2 /\ c1 = c2 /\ t1 = t2.
Proof.
  induction u1 as [|a u1 IH]; intros u2 c1 c2 t1 t2 H1 H2 Hc1 Hc2 E.
  - destruct u2 as [|b u2]; simpl in E.
    + injection E as -> ->. auto.
    + injection E as -> _. inversion H2 as [|? ? Hb _]; subst.
      unfold word_char, in_cset in Hb. simpl in Hb. congruence.
  - destruct u2 as [|b u2]; simpl in E.
    + injection E as -> _. inversion H1 as [|? ? Ha _]; subst.
      unfold word_char, in_cset in Ha. simpl in Ha. congruence.
    + injection E as -> E.
      inversion H1 as [|? ? _ H1']; inversion H2 as [|? ? _ H2']; subst.
      destruct (IH _ _ _ _ _ H1' H2' Hc1 Hc2 E) as (-> & -> & ->). auto.
Qed.

(** Every match of the third substitution starts with [frequency: ] and a
    digit or a dot. *)
Lemma frequency_match_inv s m :
  match_at frequency_pat s = Some m ->
  exists d rest, s = txt "frequency: " ++ d :: rest /\
                 in_cset (CUnion (CRange "0" "9") (CChar ".")) d.
Proof.
  unfold match_at. destruct (run frequency_pat s 0 env0) as [[n e]|] eqn:H; [|discriminate].
  intros _. unfold frequency_pat in H.
  apply run_lit_inv in H. destruct H as (s1 & -> & H).
  apply run_plus_inv in H. destruct H as (w & s2 & -> & Hne & Hw & _).
  destruct w as [|d w]; [congruence|]. inversion Hw; subst.
  exists d, (w ++ s2). auto.
Qed.

(** No such match starts in the name of a declaration. *)
Lemma frequency_not_in_name u tail :
  Forall word_char u ->
  match_at frequency_pat (u ++ txt ": CacheStats = " ++ tail) = None.
Proof.
  intros Hu. destruct (match_at frequency_pat _) as [m|] eqn:E; auto. exfalso.
  destruct (frequency_match_inv _ E) as (d & rest & Hs & Hd).
  change (u ++ txt ": CacheStats = " ++ tail)
    with (u ++ ":"%char :: txt " CacheStats = " ++ tail) in Hs.
  change (txt "frequency: " ++ d :: rest)
    with (txt "frequency" ++ ":"%char :: " "%char :: d :: rest) in Hs.
  apply first_nonword_unique in Hs; auto; [|repeat constructor].
  destruct Hs as (_ & _ & Ht). injection Ht as <- _.
  vm_compute in Hd. discriminate.
Qed.

Lemma frequency_clear_of_name name tail :
  Forall word_char name ->
  clear_before frequency_pat name (txt ": CacheStats = " ++ tail) = true.
Proof.
  induction 1 as [|c name Hc Hn IH]; [reflexivity|].
  cbn [clear_before].
  rewrite (@frequency_not_in_name (c :: name) tail) by (constructor; assumption).
  exact IH.
Qed.

Lemma clear_before_app r p1 : forall p2 tail,
  clear_before r p1 (p2 ++ tail) = true ->
  clear_before r p2 tail = true ->
  clear_before r (p1 ++ p2) tail = true.
Proof.
  induction p1 as [|c p1 IH]; intros p2 tail H1 H2; simpl in *; auto.
  rewrite <- app_assoc.
  destruct (match_at r (c :: p1 ++ p2 ++ tail)); [discriminate|]. auto.
Qed.

(** The third substitution leaves the rewritten declaration alone. *)
Lemma strip_frequency_complete_decl name :
  Forall word_char name ->
  strip_frequency (complete_decl name) = complete_decl name.
Proof.
  intros Hn. unfold strip_frequency, complete_decl.
  rewrite (app_assoc (txt "const ") name).
  rewrite sub_clear_before.
  - apply (f_equal (app _)). vm_compute. reflexivity.
  - apply clear_before_app.
    + vm_compute. reflexivity.
    + now apply frequency_clear_of_name.
Qed.

(** C5: whatever the name of a [const ...: CacheStats = {...};] declaration
    and whatever fields stand between its braces, the script puts the
    complete literal in their place; so it does on
    [const s: CacheStats = { hits: 1 };]. *)
Theorem const_literal_replaced name fields :
  name <> [] -> Forall word_char name ->
  fields <> [] -> Forall no_brace fields ->
  FixCacheStats.rewrite (const_decl name fields) = complete_decl name.
Proof.
  intros Hne Hn Hfe Hf. unfold FixCacheStats.rewrite.
  rewrite replace_const_decl by assumption.
  rewrite replace_inline_complete_decl by assumption.
  now apply strip_frequency_complete_decl.
Qed.

Lemma const_literal_replaced_witness :
  FixCacheStats.rewrite (txt "const s: CacheStats = { hits: 1 };")
  = txt "const s: CacheStats = " ++ complete_cache_stats ++ txt ";".
Proof.
  apply (@const_literal_replaced (txt "s") (txt " hits: 1 "));
    try discriminate; repeat constructor.
Defined.

End LiteralFacts.

(* ================================================================= *)
(** ** [fix_comparison_tests.py]: the three rules *)

Module ComparisonFacts.
Import Re ReFacts PatternFacts RunFacts FixComparisonTests.
Import Texts.
Import CacheStatsFacts FrequencyFacts.

(** [re.sub] returns a text none of whose characters can start a match. *)
Lemma sub_refused r rp x :
  (forall c t, In c x -> match_at r (c :: t) = None) ->
  match_at r [] = None ->
  sub r rp x = x.
Proof.
  intros H Hnil. apply sub_no_match. intros a b ->.
  destruct b as [|c b]; auto. apply H. apply in_or_app. right. simpl. auto.
Qed.

Lemma cacheMisses_refuses c t :
  Ascii.eqb "c" c = false -> match_at cacheMisses_pat (c :: t) = None.
Proof. exact (@match_at_first_group_one 1 (CChar "c") _ c t). Qed.

Lemma unitBreakdown_refuses c t :
  Ascii.eqb "u" c = false -> match_at unitBreakdown_pat (c :: t) = None.
Proof. exact (@match_at_first_group_one 1 (CChar "u") _ c t). Qed.

Lemma brace_comma_refuses c t :
  Ascii.eqb "}" c = false -> match_at brace_comma_pat (c :: t) = None.
Proof. exact (@match_at_first_one (CChar "}") _ c t). Qed.

Lemma dedup_cacheMisses_refused x :
  Forall (fun c => Ascii.eqb "c" c = false) x -> dedup_cacheMisses x = x.
Proof.
  intros H. apply sub_refused; [|reflexivity].
  intros c t Hc. apply cacheMisses_refuses. rewrite Forall_forall in H. auto.
Qed.

Lemma dedup_unitBreakdown_refused x :
  Forall (fun c => Ascii.eqb "u" c = false) x -> dedup_unitBreakdown x = x.
Proof.
  intros H. apply sub_refused; [|reflexivity].
  intros c t Hc. apply unitBreakdown_refuses. rewrite Forall_forall in H. auto.
Qed.

Lemma fix_braces_refused x :
  Forall (fun c => Ascii.eqb "}" c = false) x -> fix_braces x = x.
Proof.
  intros H. apply sub_refused; [|reflexivity].
  intros c t Hc. apply brace_comma_refuses. rewrite Forall_forall in H. auto.
Qed.

(** A character of a class is not a character outside it. *)
Lemma class_excludes (P : ascii -> bool) d c :
  P d = false -> P c = true -> Ascii.eqb d c = false.
Proof.
  intros Hd Hc. destruct (Ascii.eqb d c) eqn:E; auto.
  apply Ascii.eqb_eq in E. congruence.
Qed.

(** [Forall Q] over a text made of literal pieces and one run [H] of class
    characters, each of which has [Q] by [lem]. *)
Ltac pieces_by H lem :=
  repeat (apply Forall_app; split); try (repeat constructor);
  eapply Forall_impl; [|exact H]; apply lem.

(** Forms of the repetition lemmas for a run of no character at all. *)
Lemma run_star_empty cs r s n e :
  head_is (fun c => cset_mem cs c = false) s ->
  run (Star cs :: r) s n e = run r s n e.
Proof. intros H. cbn [run]. now apply star_stop. Qed.

Lemma run_star_char_only cs d r s' n e :
  cset_mem cs d = true ->
  head_is (fun c => c <> d /\ cset_mem cs c = false) s' ->
  run (Star cs :: One (CChar d) :: r) (d :: s') n e = run r s' (S n) e.
Proof.
  intros Hd Hs. cbn [run star]. rewrite Hd.
  rewrite (@star_none _ cs _ (fun c => c <> d) [] s'); auto.
  - cbn [cset_mem]. now rewrite Ascii.eqb_refl.
  - intros t m Ht. destruct t as [|c t]; auto. simpl in Ht.
    cbn [cset_mem]. destruct (Ascii.eqb d c) eqn:E; auto.
    apply Ascii.eqb_eq in E. congruence.
Qed.

(** *** Rule 1 *)

Lemma cacheMisses_line_length n : length (cacheMisses_line n) = 14 + length n.
Proof. unfold cacheMisses_line. repeat rewrite length_app. simpl. lia. Qed.

Lemma cacheMisses_run n1 n2 rest :
  n1 <> [] -> Forall digit_char n1 -> n2 <> [] -> Forall digit_char n2 ->
  run cacheMisses_pat (cacheMisses_line n1 ++ NL :: cacheMisses_line n2 ++ rest) 0 env0
  = Some (length (cacheMisses_line n1 ++ NL :: cacheMisses_line n2),
          MkEnv [(1, 0)] [(1, (0, length (cacheMisses_line n1)))]).
Proof.
  intros He1 H1 He2 H2.
  rewrite length_app. cbn [length]. rewrite !cacheMisses_line_length.
  unfold cacheMisses_pat, cacheMisses_line.
  repeat rewrite <- app_assoc. cbn [app].
  rewrite run_gopen, run_lit.
  apply run_plus_greedy; auto; [reflexivity|].
  change (txt "," ++ ?x) with (","%char :: x).
  rewrite run_one by reflexivity. rewrite run_gclose.
  rewrite run_star_char_only by (try split; try discriminate; reflexivity).
  rewrite run_star_empty by reflexivity.
  rewrite run_lit.
  apply run_plus_greedy; auto; [reflexivity|].
  change (txt "," ++ rest) with (","%char :: rest).
  rewrite run_one by reflexivity. rewrite run_nil.
  unfold close_group, open_group. simpl. do 2 f_equal; lia.
Qed.

Lemma digit_not_u c : digit_char c -> Ascii.eqb "u" c = false.
Proof. apply (@class_excludes is_digit). reflexivity. Qed.

Lemma digit_not_brace c : digit_char c -> Ascii.eqb "}" c = false.
Proof. apply (@class_excludes is_digit). reflexivity. Qed.

Lemma slice_prefix (w rest : str) n :
  n = length w -> slice (w ++ rest) 0 n = w.
Proof.
  intros ->. unfold slice. rewrite Nat.sub_0_r. cbn [skipn].
  apply firstn_length_app.
Qed.

(** The first rule on two [cacheMisses] lines: the second goes. *)
Lemma dedup_cacheMisses_pair n1 n2 :
  n1 <> [] -> Forall digit_char n1 -> n2 <> [] -> Forall digit_char n2 ->
  dedup_cacheMisses (cacheMisses_line n1 ++ NL :: cacheMisses_line n2 ++ [NL])
  = cacheMisses_line n1 ++ [NL].
Proof.
  intros He1 H1 He2 H2. unfold dedup_cacheMisses.
  pose proof (@cacheMisses_run n1 n2 [NL] He1 H1 He2 H2) as Hrun.
  replace (cacheMisses_line n1 ++ NL :: cacheMisses_line n2 ++ [NL])
    with ((cacheMisses_line n1 ++ NL :: cacheMisses_line n2) ++ [NL]) in *
    by (rewrite <- app_assoc; reflexivity).
  rewrite (@sub_match_head _ (Template [Ref 1]) _ _
             (MkMatch (length (cacheMisses_line n1 ++ NL :: cacheMisses_line n2))
                      [(1, (0, length (cacheMisses_line n1)))])).
  - cbn [expand expand_template group m_spans assoc Nat.eqb].
    rewrite <- (app_assoc (cacheMisses_line n1)).
    rewrite slice_prefix by reflexivity.
    rewrite app_nil_r. reflexivity.
  - unfold match_at. now rewrite Hrun.
  - reflexivity.
  - unfold cacheMisses_line. discriminate.
Qed.

(** C3, as stated, fails: the first rule looks for the key [cacheMisses]
    only, and the script returns the two [x: 1,] lines as they are. *)
Lemma other_key_not_deduplicated :
  FixComparisonTests.rewrite duplicated_x = duplicated_x /\
  FixComparisonTests.rewrite duplicated_x <> txt "x: 1," ++ [NL].
Proof.
  split; vm_compute; [reflexivity|discriminate].
Qed.

(** C3, amended: on [cacheMisses: N,] followed on the next line by
    [cacheMisses: M,], for any digits [N] and [M], the output of the script
    is the first line alone. *)
Theorem cacheMisses_deduplicated n1 n2 :
  n1 <> [] -> Forall digit_char n1 -> n2 <> [] -> Forall digit_char n2 ->
  FixComparisonTests.rewrite
    (cacheMisses_line n1 ++ NL :: cacheMisses_line n2 ++ [NL])
  = cacheMisses_line n1 ++ [NL].
Proof.
  intros He1 H1 He2 H2. unfold FixComparisonTests.rewrite.
  rewrite dedup_cacheMisses_pair by assumption.
  rewrite dedup_unitBreakdown_refused.
  - apply fix_braces_refused. unfold cacheMisses_line.
    pieces_by H1 digit_not_brace.
  - unfold cacheMisses_line. pieces_by H1 digit_not_u.
Qed.

Lemma cacheMisses_deduplicated_witness :
  FixComparisonTests.rewrite
    (cacheMisses_line (txt "1") ++ NL :: cacheMisses_line (txt "1") ++ [NL])
  = cacheMisses_line (txt "1") ++ [NL].
Proof.
  apply (@cacheMisses_deduplicated (txt "1") (txt "1"));
    try discriminate; repeat constructor.
Defined.

(** *** Rule 3 *)

Lemma space_not_u c : space_char c -> Ascii.eqb "u" c = false.
Proof. apply (@class_excludes is_space). reflexivity. Qed.

Lemma space_not_comma c : space_char c -> Ascii.eqb "," c = false.
Proof. apply (@class_excludes is_space). reflexivity. Qed.

Lemma brace_comma_run gap :
  Forall space_char gap ->
  run brace_comma_pat (braces_with_comma gap) 0 env0
  = Some (length (braces_with_comma gap), env0).
Proof.
  intros Hg. unfold brace_comma_pat, braces_with_comma.
  change (txt "}," ++ gap ++ txt "}") with ("}"%char :: ","%char :: gap ++ ["}"%char]).
  rewrite !run_one by reflexivity.
  apply run_star_greedy; auto; [reflexivity|].
  rewrite run_one by reflexivity. rewrite run_nil.
  do 2 f_equal. simpl. rewrite length_app. simpl. lia.
Qed.

(** C4, as stated, fails: the third rule needs a closing brace before the
    comma, and [value,] before a closing brace is returned as it is. *)
Lemma comma_after_value_kept :
  FixComparisonTests.rewrite value_comma_brace = value_comma_brace /\
  FixComparisonTests.rewrite value_comma_brace <> txt "value" ++ NL :: txt "}".
Proof.
  split; vm_compute; [reflexivity|discriminate].
Qed.

(** C4, amended: a comma that follows a closing brace and is followed,
    across any whitespace, by another closing brace is removed, and the
    whitespace becomes a newline and six spaces. *)
Theorem comma_between_braces_removed gap :
  Forall space_char gap ->
  FixComparisonTests.rewrite (braces_with_comma gap)
  = txt "}" ++ NL :: txt "      }".
Proof.
  intros Hg. unfold FixComparisonTests.rewrite.
  assert (Hc : Forall (fun c => Ascii.eqb "c" c = false) (braces_with_comma gap)).
  { unfold braces_with_comma. pieces_by Hg space_not_letter_c. }
  assert (Hu : Forall (fun c => Ascii.eqb "u" c = false) (braces_with_comma gap)).
  { unfold braces_with_comma. pieces_by Hg space_not_u. }
  rewrite (dedup_cacheMisses_refused Hc), (dedup_unitBreakdown_refused Hu).
  unfold fix_braces.
  rewrite (@sub_match_whole brace_comma_pat _ _
             (MkMatch (length (braces_with_comma gap)) [])).
  - reflexivity.
  - unfold match_at. now rewrite brace_comma_run.
  - reflexivity.
  - unfold braces_with_comma. discriminate.
  - reflexivity.
Qed.

Lemma comma_between_braces_removed_witness :
  FixComparisonTests.rewrite (braces_with_comma [NL])
  = txt "}" ++ NL :: txt "      }".
Proof.
  apply (@comma_between_braces_removed [NL]). repeat constructor.
Defined.


(** *** Rule 2 *)

Lemma unit_block_length b : length (unit_block b) = 17 + length b.
Proof. unfold unit_block. repeat rewrite length_app. simpl. lia. Qed.

(** A list that contains [d] splits at its last [d]. *)
Lemma in_split_last (d : ascii) (l : str) :
  In d l -> exists l1 l2, l = l1 ++ d :: l2 /\ ~ In d l2.
Proof.
  induction l as [|c l IH]; intros H; [destruct H|].
  destruct (in_dec ascii_dec d l) as [Hin|Hout].
  - destruct (IH Hin) as (l1 & l2 & -> & H2). now exists (c :: l1), l2.
  - destruct H as [->|H]; [|contradiction]. now exists [], l.
Qed.

(** The second half of the pattern, from the whitespace on. *)
Lemma unitBreakdown_tail_run ws1 ws2 b2 post n e :
  Forall space_char ws1 -> Forall blank_char ws2 ->
  b2 <> [] -> Forall no_brace b2 ->
  run (Star CSpace :: One (CChar NL) :: Star CSpace ::
       lit "unitBreakdown: {" ++ [Plus (CNot (CChar "}")); One (CChar "}")])
      (ws1 ++ NL :: ws2 ++ unit_block b2 ++ post) n e
  = Some (n + length ws1 + 1 + length ws2 + length (unit_block b2), e).
Proof.
  intros H1 H2 Hbe Hb. rewrite unit_block_length. unfold unit_block.
  repeat rewrite <- app_assoc.
  apply run_star_then_char; auto.
  { eapply Forall_impl; [|exact H2]. now intros c [_ Hc]. }
  { split; [discriminate|reflexivity]. }
  apply run_star_greedy; [now apply blank_is_space|reflexivity|].
  rewrite run_lit.
  apply run_plus_greedy; auto; [reflexivity|].
  change (txt "}" ++ post) with ("}"%char :: post).
  rewrite run_one by reflexivity. rewrite run_nil.
  simpl String.length. do 2 f_equal. lia.
Qed.

Lemma unitBreakdown_run b1 comma ws1 ws2 b2 post :
  b1 <> [] -> Forall no_brace b1 -> b2 <> [] -> Forall no_brace b2 ->
  comma = [] \/ comma = txt "," ->
  Forall space_char ws1 -> Forall blank_char ws2 ->
  run unitBreakdown_pat
      (duplicated_blocks b1 comma (ws1 ++ NL :: ws2) b2 ++ post) 0 env0
  = Some (length (duplicated_blocks b1 comma (ws1 ++ NL :: ws2) b2),
          MkEnv [(1, 0)] [(1, (0, length (unit_block b1)))]).
Proof.
  intros He1 Hb1 He2 Hb2 Hc H1 H2.
  unfold duplicated_blocks. repeat rewrite length_app. cbn [length].
  rewrite !unit_block_length.
  unfold unitBreakdown_pat. cbn [app]. rewrite run_gopen.
  unfold unit_block at 1. repeat rewrite <- app_assoc. cbn [app].
  rewrite run_lit.
  apply run_plus_greedy; auto; [reflexivity|].
  change (txt "}" ++ ?x) with ("}"%char :: x).
  rewrite run_one by reflexivity. rewrite run_gclose.
  destruct Hc as [->| ->].
  - cbn [app]. rewrite run_opt_skip.
    + rewrite unitBreakdown_tail_run by assumption.
      rewrite unit_block_length. unfold close_group, open_group. simpl.
      do 2 f_equal; lia.
    + destruct H1 as [|c ws1 Hc H1]; [reflexivity|].
      simpl. cbn [cset_mem]. now apply space_not_comma.
  - change (txt "," ++ ?x) with (","%char :: x).
    apply run_opt_take; [reflexivity|].
    rewrite unitBreakdown_tail_run by assumption.
    rewrite unit_block_length. unfold close_group, open_group. simpl.
    do 2 f_equal; lia.
Qed.

(** C7, as stated, fails: the second rule looks for the key [unitBreakdown]
    only; two adjacent block-valued assignments of another key stay. *)
Lemma other_block_key_kept :
  dedup_unitBreakdown duplicated_x_block = duplicated_x_block /\
  FixComparisonTests.rewrite duplicated_x_block = duplicated_x_block /\
  FixComparisonTests.rewrite duplicated_x_block <> txt "x: {a}".
Proof.
  repeat split; vm_compute; try reflexivity. discriminate.
Qed.

(** Three blocks in a row: the substitution joins the first two and starts
    again after them, so the third stays, next to the first. *)
Example three_blocks_leave_two :
  dedup_unitBreakdown
    (unit_block (txt "a") ++ NL :: unit_block (txt "b") ++ NL :: unit_block (txt "c"))
  = unit_block (txt "a") ++ NL :: unit_block (txt "c").
Proof. vm_compute. reflexivity. Qed.

(** On two blocks the other two rules have nothing to do with, the whole
    script gives the first block. *)
Example blocks_through_the_script :
  FixComparisonTests.rewrite
    (duplicated_blocks (txt " days: 1 ") (txt ",") (NL :: txt "  ") (txt " days: 2 "))
  = unit_block (txt " days: 1 ").
Proof. vm_compute. reflexivity. Qed.

(** C7, amended: for the key [unitBreakdown], when no match of the rule
    starts in the text [pre] before it, a block-valued assignment followed,
    across an optional comma and whitespace with a newline, by a second one
    is replaced by the first assignment alone; the text before is kept and
    the substitution goes on in the text after. *)
Theorem unitBreakdown_deduplicated pre b1 comma gap b2 post :
  clear_before unitBreakdown_pat pre (duplicated_blocks b1 comma gap b2 ++ post) = true ->
  b1 <> [] -> Forall no_brace b1 -> b2 <> [] -> Forall no_brace b2 ->
  comma = [] \/ comma = txt "," ->
  Forall space_char gap -> In NL gap ->
  dedup_unitBreakdown (pre ++ duplicated_blocks b1 comma gap b2 ++ post)
  = pre ++ unit_block b1 ++ dedup_unitBreakdown post.
Proof.
  intros Hpre He1 Hb1 He2 Hb2 Hc Hg Hnl.
  destruct (in_split_last _ _ Hnl) as (ws1 & ws2 & -> & Hlast).
  apply Forall_app in Hg. destruct Hg as [H1 Hg].
  inversion Hg as [|? ? _ H2']; subst.
  assert (H2 : Forall blank_char ws2).
  { rewrite Forall_forall in *. intros c Hc2. split.
    - now apply H2'.
    - intros ->. contradiction. }
  unfold dedup_unitBreakdown.
  rewrite (sub_clear_before _ _ _ _ Hpre). f_equal.
  pose proof (@unitBreakdown_run b1 comma ws1 ws2 b2 post He1 Hb1 He2 Hb2 Hc H1 H2) as Hrun.
  rewrite (@sub_match_head _ (Template [Ref 1]) _ _
             (MkMatch (length (duplicated_blocks b1 comma (ws1 ++ NL :: ws2) b2))
                      [(1, (0, length (unit_block b1)))])).
  - cbn [expand expand_template group m_spans assoc Nat.eqb].
    unfold duplicated_blocks at 1. rewrite <- (app_assoc (unit_block b1)).
    rewrite slice_prefix by reflexivity. now rewrite app_nil_r.
  - unfold match_at. now rewrite Hrun.
  - reflexivity.
  - unfold duplicated_blocks, unit_block. discriminate.
Qed.

Lemma unitBreakdown_deduplicated_witness :
  dedup_unitBreakdown
    (txt "  " ++ duplicated_blocks (txt " days: 1 ") (txt ",") (NL :: txt "  ")
                                   (txt " days: 2 ") ++ txt "," ++ [NL])
  = txt "  " ++ unit_block (txt " days: 1 ") ++ dedup_unitBreakdown (txt "," ++ [NL]).
Proof.
  apply (@unitBreakdown_deduplicated (txt "  ") (txt " days: 1 ") (txt ",")
           (NL :: txt "  ") (txt " days: 2 ") (txt "," ++ [NL])).
  - vm_compute. reflexivity.
  - discriminate.
  - repeat constructor.
  - discriminate.
  - repeat constructor.
  - right. reflexivity.
  - repeat constructor.
  - left. reflexivity.
Defined.

End ComparisonFacts.

(* ================================================================= *)
(** ** [fix_cache_stats.py]: declarations in their context *)

Module DeclarationStepFacts.
Import Re ReFacts PatternFacts RunFacts FixCacheStats CacheStatsFacts LiteralFacts.
Import Texts MoreTexts.

(** A text splits in one way at its first closing brace. *)
Lemma first_brace_unique u1 : forall u2 (t1 t2 : str),
  Forall no_brace u1 -> Forall no_brace u2 ->
  u1 ++ "}"%char :: t1 = u2 ++ "}"%char :: t2 ->
  u1 = u2 /\ t1 = t2.
Proof.
  induction u1 as [|a u1 IH]; intros u2 t1 t2 H1 H2 E.
  - destruct u2 as [|b u2]; simpl in E.
    + injection E as ->. auto.
    + injection E as <- _. inversion H2 as [|? ? Hb _]; subst.
      vm_compute in Hb. discriminate.
  - destruct u2 as [|b u2]; simpl in E.
    + injection E as -> _. inversion H1 as [|? ? Ha _]; subst.
      vm_compute in Ha. discriminate.
    + injection E as -> E.
      inversion H1 as [|? ? _ H1']; inversion H2 as [|? ? _ H2']; subst.
      destruct (IH _ _ _ H1' H2' E) as (-> & ->). auto.
Qed.

Lemma word_no_brace c : word_char c -> no_brace c.
Proof.
  intros H. unfold no_brace, in_cset. cbn [cset_mem].
  destruct (Ascii.eqb "}" c) eqn:E; auto.
  apply Ascii.eqb_eq in E. subst c. vm_compute in H. discriminate.
Qed.

(** In every match of the first substitution, the first closing brace is
    followed by a semicolon. *)
Lemma const_match_brace_semicolon b m :
  match_at const_pat b = Some m ->
  exists y rest, b = y ++ "}"%char :: ";"%char :: rest /\ Forall no_brace y.
Proof.
  intros H.
  destruct (const_match_inv _ H) as (name & body & rest & -> & _ & Hn & _ & Hb & _).
  exists (txt "const " ++ name ++ txt ": CacheStats = {" ++ body), rest. split.
  - unfold const_decl. repeat rewrite <- app_assoc. reflexivity.
  - repeat (apply Forall_app; split); auto; try (repeat constructor).
    eapply Forall_impl; [|exact Hn]. apply word_no_brace.
Qed.

Lemma const_clear_to_brace pre rest :
  Forall no_brace pre -> no_semicolon_next rest ->
  clear_before const_pat pre ("}"%char :: rest) = true.
Proof.
  intros Hp Hr. induction Hp as [|c pre Hc Hp IH]; [reflexivity|].
  cbn [clear_before].
  destruct (match_at const_pat ((c :: pre) ++ "}"%char :: rest)) as [m|] eqn:E; auto.
  exfalso. destruct (const_match_brace_semicolon _ E) as (y & rest' & Hs & Hy).
  apply first_brace_unique in Hs; auto.
  destruct Hs as [_ ->]. simpl in Hr. congruence.
Qed.

Lemma const_clear_through_brace pre rest :
  Forall no_brace pre -> no_semicolon_next rest ->
  clear_before const_pat (pre ++ ["}"%char]) rest = true.
Proof.
  intros Hp Hr. apply clear_before_app.
  - now apply const_clear_to_brace.
  - reflexivity.
Qed.

(** X1: the first substitution copies the text up to a closing brace that no
    semicolon follows: what it rewrites ends in [};]. *)
Theorem replace_const_needs_semicolon pre rest :
  Forall no_brace pre -> no_semicolon_next rest ->
  replace_const (pre ++ "}"%char :: rest) = pre ++ "}"%char :: replace_const rest.
Proof.
  intros Hp Hr. unfold replace_const.
  change (pre ++ "}"%char :: rest) with (pre ++ ["}"%char] ++ rest).
  rewrite app_assoc, sub_clear_before.
  - rewrite <- app_assoc. reflexivity.
  - now apply const_clear_through_brace.
Qed.

Lemma replace_const_needs_semicolon_witness :
  replace_const (txt "const s: CacheStats = { a: { b: 1 " ++ "}"%char :: txt " };")
  = txt "const s: CacheStats = { a: { b: 1 " ++ "}"%char :: replace_const (txt " };").
Proof.
  apply (@replace_const_needs_semicolon
           (txt "const s: CacheStats = { a: { b: 1 ") (txt " };")).
  - repeat constructor.
  - discriminate.
Defined.

(** The first substitution at a declaration. *)
Lemma replace_const_decl_first name fields post :
  name <> [] -> Forall word_char name ->
  fields <> [] -> Forall no_brace fields ->
  sub const_pat (Callable const_repl) (const_decl name fields ++ post)
  = complete_decl name ++ sub const_pat (Callable const_repl) post.
Proof.
  intros Hne Hn Hfe Hf.
  rewrite (@sub_match_head _ (Callable const_repl) _ _ _
             (@const_match name fields post Hne Hn Hfe Hf)).
  - unfold expand, const_repl, group. cbn [m_end]. rewrite firstn_length_app.
    rewrite split_head_const_decl by exact Hn.
    unfold complete_decl. repeat rewrite <- app_assoc. reflexivity.
  - reflexivity.
  - unfold const_decl. discriminate.
Qed.

(** X2: the first substitution in a text: the declaration it meets first gets
    the complete literal, the text before is copied, and the substitution
    goes on after the semicolon. *)
Theorem replace_const_in_context pre name fields post :
  clear_before const_pat pre (const_decl name fields ++ post) = true ->
  name <> [] -> Forall word_char name ->
  fields <> [] -> Forall no_brace fields ->
  replace_const (pre ++ const_decl name fields ++ post)
  = pre ++ complete_decl name ++ replace_const post.
Proof.
  intros Hpre Hne Hn Hfe Hf. unfold replace_const.
  rewrite (sub_clear_before _ _ _ _ Hpre).
  now rewrite replace_const_decl_first.
Qed.

Lemma replace_const_in_context_witness :
  replace_const (txt "  " ++ const_decl (txt "a") (txt " hits: 1 ")
                 ++ NL :: txt "const b: CacheStats = {};")
  = txt "  " ++ complete_decl (txt "a")
    ++ replace_const (NL :: txt "const b: CacheStats = {};").
Proof.
  apply (@replace_const_in_context (txt "  ") (txt "a") (txt " hits: 1 ")
           (NL :: txt "const b: CacheStats = {};"));
    try discriminate; try (repeat constructor).
Defined.

(** The second substitution at an annotated literal. *)
Lemma replace_inline_decl_first name fields post :
  name <> [] -> Forall word_char name ->
  fields <> [] -> Forall no_brace fields ->
  sub inline_pat inline_repl (inline_decl name fields ++ post)
  = complete_inline name ++ sub inline_pat inline_repl post.
Proof.
  intros Hne Hn Hfe Hf.
  rewrite (@sub_match_head _ inline_repl _ _ _
             (@inline_match name fields post Hne Hn Hfe Hf)).
  - cbn [expand inline_repl expand_template group m_spans assoc Nat.eqb].
    rewrite inline_group1. unfold complete_inline.
    repeat rewrite <- app_assoc. reflexivity.
  - reflexivity.
  - unfold inline_decl. destruct name; [congruence|discriminate].
Qed.

(** X3: the second substitution in a text, likewise: the name and annotation
    stay, the value becomes the complete literal. *)
Theorem replace_inline_in_context pre name fields post :
  clear_before inline_pat pre (inline_decl name fields ++ post) = true ->
  name <> [] -> Forall word_char name ->
  fields <> [] -> Forall no_brace fields ->
  replace_inline (pre ++ inline_decl name fields ++ post)
  = pre ++ complete_inline name ++ replace_inline post.
Proof.
  intros Hpre Hne Hn Hfe Hf. unfold replace_inline.
  rewrite (sub_clear_before _ _ _ _ Hpre).
  now rewrite replace_inline_decl_first.
Qed.

Lemma replace_inline_in_context_witness :
  replace_inline (txt "f(" ++ inline_decl (txt "stats") (txt " a: { b: 1 ") ++ txt " })")
  = txt "f(" ++ complete_inline (txt "stats") ++ replace_inline (txt " })").
Proof.
  apply (@replace_inline_in_context (txt "f(") (txt "stats") (txt " a: { b: 1 ")
           (txt " })"));
    try discriminate; try (repeat constructor).
Defined.


(** *** A literal that no semicolon follows, through the script *)

Lemma inline_decl_to_brace kw name fields rest :
  kw ++ inline_decl name fields ++ rest
  = (kw ++ name ++ txt ": CacheStats = {" ++ fields) ++ "}"%char :: rest.
Proof.
  unfold inline_decl. repeat rewrite <- app_assoc. reflexivity.
Qed.

Lemma strip_frequency_after_literal kw name rest :
  kw = [] \/ kw = txt "const " ->
  Forall word_char name ->
  strip_frequency (kw ++ complete_inline name ++ rest)
  = kw ++ complete_inline name ++ strip_frequency rest.
Proof.
  intros Hkw Hn. unfold strip_frequency, complete_inline.
  replace (kw ++ (name ++ txt ": CacheStats = " ++ complete_cache_stats) ++ rest)
    with ((kw ++ name ++ txt ": CacheStats = " ++ complete_cache_stats) ++ rest)
    by (repeat rewrite <- app_assoc; reflexivity).
  rewrite sub_clear_before.
  - repeat rewrite <- app_assoc. reflexivity.
  - apply clear_before_app.
    + destruct Hkw as [->| ->]; vm_compute; reflexivity.
    + apply clear_before_app.
      * rewrite <- app_assoc. now apply frequency_clear_of_name.
      * vm_compute. reflexivity.
Qed.

(** X4: an annotated literal whose closing brace no semicolon follows (an
    object passed inline, or a declaration whose value holds an object of
    its own), with or without [const] before it: the script puts the
    complete literal up to that brace and treats the text after it on its
    own. *)
Theorem literal_without_semicolon kw name fields rest :
  kw = [] \/ kw = txt "const " ->
  name <> [] -> Forall word_char name ->
  fields <> [] -> Forall no_brace fields ->
  no_semicolon_next rest ->
  FixCacheStats.rewrite (kw ++ inline_decl name fields ++ rest)
  = kw ++ complete_inline name ++ FixCacheStats.rewrite rest.
Proof.
  intros Hkw Hne Hn Hfe Hf Hr. unfold FixCacheStats.rewrite.
  assert (Hpre : Forall no_brace (kw ++ name ++ txt ": CacheStats = {" ++ fields)).
  { repeat (apply Forall_app; split); auto; try (repeat constructor).
    - destruct Hkw as [->| ->]; repeat constructor.
    - eapply Forall_impl; [|exact Hn]. apply word_no_brace. }
  assert (E1 : replace_const (kw ++ inline_decl name fields ++ rest)
               = kw ++ inline_decl name fields ++ replace_const rest).
  { rewrite !inline_decl_to_brace. unfold replace_const.
    change (?p ++ "}"%char :: rest) with (p ++ ["}"%char] ++ rest).
    rewrite app_assoc, sub_clear_before.
    - rewrite <- app_assoc. reflexivity.
    - now apply const_clear_through_brace. }
  assert (E2 : forall t, replace_inline (kw ++ inline_decl name fields ++ t)
                         = kw ++ complete_inline name ++ replace_inline t).
  { intros t. unfold replace_inline. rewrite sub_clear_before.
    - now rewrite replace_inline_decl_first.
    - destruct Hkw as [->| ->]; [reflexivity|vm_compute; reflexivity]. }
  rewrite E1, E2. now apply strip_frequency_after_literal.
Qed.

Lemma literal_without_semicolon_witness :
  FixCacheStats.rewrite
    (txt "const " ++ inline_decl (txt "s") (txt " a: { b: 1 ") ++ txt " };")
  = txt "const " ++ complete_inline (txt "s") ++ FixCacheStats.rewrite (txt " };").
Proof.
  apply (@literal_without_semicolon (txt "const ") (txt "s") (txt " a: { b: 1 ")
           (txt " };")).
  - right. reflexivity.
  - discriminate.
  - repeat constructor.
  - discriminate.
  - repeat constructor.
  - discriminate.
Defined.

(** The declaration with an object inside: the closing braces of the old
    value stay after the new one. *)
Example nested_decl_keeps_a_brace :
  FixCacheStats.rewrite nested_decl
  = txt "const s: CacheStats = " ++ complete_cache_stats ++ txt " };".
Proof. vm_compute. reflexivity. Qed.

(** *** A declaration that is complete already *)

Lemma complete_decl_is_const_decl name :
  complete_decl name = const_decl name complete_fields.
Proof.
  unfold complete_decl, const_decl. rewrite complete_cache_stats_shape.
  repeat rewrite <- app_assoc. reflexivity.
Qed.

(** X5: the script leaves as it is a declaration whose value is the complete
    literal: a second run does not change what the first one wrote. *)
Theorem complete_decl_fixed name :
  name <> [] -> Forall word_char name ->
  FixCacheStats.rewrite (complete_decl name) = complete_decl name.
Proof.
  intros Hne Hn. destruct complete_fields_no_brace as [Hfe Hf].
  unfold FixCacheStats.rewrite.
  rewrite complete_decl_is_const_decl at 1.
  rewrite replace_const_decl by assumption.
  rewrite replace_inline_complete_decl by assumption.
  now apply strip_frequency_complete_decl.
Qed.

Lemma complete_decl_fixed_witness :
  FixCacheStats.rewrite (complete_decl (txt "stats")) = complete_decl (txt "stats").
Proof.
  apply (@complete_decl_fixed (txt "stats")); [discriminate|repeat constructor].
Defined.

End DeclarationStepFacts.

(* ================================================================= *)
(** ** [fix_cache_stats.py]: the [frequency] field in its context *)

Module FrequencyStepFacts.
Import Re ReFacts PatternFacts RunFacts FixCacheStats CacheStatsFacts.
Import FrequencyFacts LiteralFacts ComparisonFacts.
Import Texts MoreTexts.

Section StarFails.

Variable R : Type.
Variable cs : cset.
Variable k : str -> nat -> option R.

(** A repetition fails when the rest of the pattern fails after the run
    and refuses every character of it. *)
Lemma star_fail (P : ascii -> Prop) w : forall s' n,
  (forall c t m, P c -> k (c :: t) m = None) ->
  Forall P w ->
  star cs k s' (n + length w) = None ->
  star cs k (w ++ s') n = None.
Proof.
  induction w as [|c w IH]; intros s' n Hk Hw H; simpl in *.
  - now rewrite Nat.add_0_r in H.
  - inversion Hw as [|? ? Hc Hw']; subst.
    rewrite IH; auto.
    + destruct (cset_mem cs c); now apply Hk.
    + now rewrite Nat.add_succ_r in H.
Qed.

End StarFails.

Lemma run_plus_fail cs r (P : ascii -> Prop) w s' n e :
  w <> [] ->
  Forall (in_cset cs) w -> Forall P w ->
  (forall c t m, P c -> run r (c :: t) m e = None) ->
  head_is (fun c => cset_mem cs c = false) s' ->
  run r s' (n + length w) e = None ->
  run (Plus cs :: r) (w ++ s') n e = None.
Proof.
  intros Hne Hw HP Hk Hs Hr. destruct w as [|c w]; [congruence|].
  inversion Hw as [|? ? Hc Hw']; inversion HP as [|? ? _ HP']; subst.
  unfold in_cset in Hc. cbn [run app]. rewrite Hc.
  apply (@star_fail _ cs _ P); auto.
  rewrite star_stop by exact Hs.
  simpl in Hr. now rewrite Nat.add_succ_r in Hr.
Qed.

Lemma number_not_comma c : number_char c -> c <> ","%char.
Proof. intros H ->. vm_compute in H. discriminate. Qed.

Lemma number_not_f c : number_char c -> Ascii.eqb "f" c = false.
Proof.
  intros H. destruct (Ascii.eqb "f" c) eqn:E; auto.
  apply Ascii.eqb_eq in E. subst c. vm_compute in H. discriminate.
Qed.

Lemma space_not_f c : space_char c -> Ascii.eqb "f" c = false.
Proof. apply (@class_excludes is_space). reflexivity. Qed.

Lemma frequency_field_length num :
  length (frequency_field num) = 12 + length num.
Proof. unfold frequency_field. repeat rewrite length_app. simpl. lia. Qed.

(** The match of the third substitution at a [frequency] field: it runs
    through the last newline of the whitespace after the comma. *)
Lemma frequency_run_any num ws1 ws2 rest :
  num <> [] -> Forall number_char num ->
  Forall space_char ws1 -> Forall blank_char ws2 -> starts_with_text rest ->
  run frequency_pat (frequency_field num ++ ws1 ++ NL :: ws2 ++ rest) 0 env0
  = Some (length (frequency_field num ++ ws1 ++ [NL]), env0).
Proof.
  intros Hne Hnum H1 H2 Hr.
  repeat rewrite length_app. rewrite frequency_field_length. cbn [length].
  unfold frequency_pat, frequency_field. repeat rewrite <- app_assoc.
  rewrite run_lit.
  apply run_plus_greedy; auto; [reflexivity|].
  change (txt "," ++ ?x) with (","%char :: x).
  rewrite run_one by reflexivity.
  apply run_star_then_char; auto.
  - eapply Forall_impl; [|exact H2]. now intros c [_ Hc].
  - destruct rest as [|c rest]; simpl in *; auto. split; auto.
    intros ->. vm_compute in Hr. discriminate.
  - rewrite run_nil. simpl String.length. do 2 f_equal. lia.
Qed.

(** X6: the third substitution in a text: a [frequency] field with any number
    goes, with the whitespace after its comma through the last newline of
    that whitespace; the text before is copied, and the indentation of the
    next line stays. *)
Theorem strip_frequency_in_context pre num ws1 ws2 rest :
  clear_before frequency_pat pre
    (frequency_field num ++ ws1 ++ NL :: ws2 ++ rest) = true ->
  num <> [] -> Forall number_char num ->
  Forall space_char ws1 -> Forall blank_char ws2 -> starts_with_text rest ->
  strip_frequency (pre ++ frequency_field num ++ ws1 ++ NL :: ws2 ++ rest)
  = pre ++ strip_frequency (ws2 ++ rest).
Proof.
  intros Hpre Hne Hnum H1 H2 Hr. unfold strip_frequency.
  rewrite (sub_clear_before _ _ _ _ Hpre). f_equal.
  pose proof (@frequency_run_any num ws1 ws2 rest Hne Hnum H1 H2 Hr) as Hrun.
  replace (frequency_field num ++ ws1 ++ NL :: ws2 ++ rest)
    with ((frequency_field num ++ ws1 ++ [NL]) ++ ws2 ++ rest) in *
    by (repeat rewrite <- app_assoc; reflexivity).
  rewrite (@sub_match_head _ (Template []) _ _
             (MkMatch (length (frequency_field num ++ ws1 ++ [NL])) [])).
  - reflexivity.
  - unfold match_at. now rewrite Hrun.
  - reflexivity.
  - unfold frequency_field. discriminate.
Qed.

Lemma strip_frequency_in_context_witness :
  strip_frequency (txt "  name: 1," ++ NL :: txt "  " ++ frequency_field (txt "12.5")
                   ++ txt " " ++ NL :: txt "  " ++ txt "count: 2")
  = (txt "  name: 1," ++ NL :: txt "  ") ++ strip_frequency (txt "  " ++ txt "count: 2").
Proof.
  apply (@strip_frequency_in_context (txt "  name: 1," ++ NL :: txt "  ")
           (txt "12.5") (txt " ") (txt "  ") (txt "count: 2")).
  - vm_compute. reflexivity.
  - discriminate.
  - repeat constructor.
  - repeat constructor.
  - repeat constructor; discriminate.
  - reflexivity.
Defined.

(** *** A field that does not end its line *)

Lemma frequency_no_match_without_newline num ws rest :
  num <> [] -> Forall number_char num ->
  Forall blank_char ws -> starts_with_text rest ->
  match_at frequency_pat (frequency_field num ++ ws ++ rest) = None.
Proof.
  intros Hne Hnum Hw Hr. unfold match_at.
  replace (run frequency_pat (frequency_field num ++ ws ++ rest) 0 env0)
    with (@None (nat * env)); [reflexivity|]. symmetry.
  unfold frequency_pat, frequency_field. repeat rewrite <- app_assoc.
  rewrite run_lit.
  apply (@run_plus_fail _ _ (fun c => c <> ","%char)); auto.
  - eapply Forall_impl; [|exact Hnum]. apply number_not_comma.
  - intros c t m Hc. cbn [run cset_mem].
    destruct (Ascii.eqb "," c) eqn:E; auto.
    apply Ascii.eqb_eq in E. congruence.
  - reflexivity.
  - change (txt "," ++ ?x) with (","%char :: x).
    rewrite run_one by reflexivity. cbn [run].
    apply (@star_none _ CSpace _ (fun c => c <> NL)).
    + intros t m Ht. destruct t as [|c t]; [reflexivity|]. simpl in Ht.
      cbn [cset_mem]. destruct (Ascii.eqb NL c) eqn:E; auto.
      apply Ascii.eqb_eq in E. congruence.
    + eapply Forall_impl; [|exact Hw]. now intros c [_ Hc].
    + destruct rest as [|c rest]; simpl in *; auto. split; auto.
      intros ->. vm_compute in Hr. discriminate.
Qed.

Lemma clear_before_cons r c p tail :
  match_at r (c :: p ++ tail) = None ->
  clear_before r p tail = true ->
  clear_before r (c :: p) tail = true.
Proof. intros H1 H2. cbn [clear_before app]. now rewrite H1. Qed.

(** X7: a [frequency] field after which the line goes on, or the text ends
    without a newline, is not removed. *)
Theorem frequency_kept_without_newline num ws rest :
  num <> [] -> Forall number_char num ->
  Forall blank_char ws -> starts_with_text rest ->
  strip_frequency (frequency_field num ++ ws ++ rest)
  = frequency_field num ++ ws ++ strip_frequency rest.
Proof.
  intros Hne Hnum Hw Hr. unfold strip_frequency.
  rewrite (app_assoc (frequency_field num) ws rest).
  rewrite sub_clear_before.
  - now rewrite <- app_assoc.
  - change (frequency_field num ++ ws)
      with ("f"%char :: (txt "requency: " ++ num ++ txt ",") ++ ws).
    apply clear_before_cons.
    + replace ("f"%char :: ((txt "requency: " ++ num ++ txt ",") ++ ws) ++ rest)
        with (frequency_field num ++ ws ++ rest)
        by (unfold frequency_field; repeat rewrite <- app_assoc; reflexivity).
      now apply frequency_no_match_without_newline.
    + apply clear_before_refused. intros c t Hc.
      apply (@match_at_first_one (CChar "f")). cbn [cset_mem].
      revert c Hc. apply Forall_forall.
      repeat (apply Forall_app; split); try (repeat constructor).
      * eapply Forall_impl; [|exact Hnum]. apply number_not_f.
      * eapply Forall_impl; [|exact Hw]. intros c [Hc _]. now apply space_not_f.
Qed.

Lemma frequency_kept_without_newline_witness :
  strip_frequency (frequency_field (txt "0.5") ++ txt " " ++ txt "count: 2 }")
  = frequency_field (txt "0.5") ++ txt " " ++ strip_frequency (txt "count: 2 }").
Proof.
  apply (@frequency_kept_without_newline (txt "0.5") (txt " ") (txt "count: 2 }")).
  - discriminate.
  - repeat constructor.
  - repeat constructor; discriminate.
  - reflexivity.
Defined.

End FrequencyStepFacts.

(* ================================================================= *)
(** ** [fix_comparison_tests.py]: the rules in their context *)

Module ComparisonStepFacts.
Import Re ReFacts PatternFacts RunFacts FixComparisonTests.
Import CacheStatsFacts FrequencyFacts ComparisonFacts FrequencyStepFacts.
Import Texts MoreTexts.

(** *** Rule 1 *)

Lemma blank_of_last_newline ws1 ws2 :
  Forall space_char (ws1 ++ NL :: ws2) -> ~ In NL ws2 ->
  Forall space_char ws1 /\ Forall blank_char ws2.
Proof.
  intros Hg Hlast. apply Forall_app in Hg. destruct Hg as [H1 Hg].
  inversion Hg as [|? ? _ H2]; subst. split; auto.
  rewrite Forall_forall in *. intros c Hc. split.
  - now apply H2.
  - intros ->. contradiction.
Qed.

Lemma cacheMisses_run_gap n1 ws1 ws2 n2 post :
  n1 <> [] -> Forall digit_char n1 -> n2 <> [] -> Forall digit_char n2 ->
  Forall space_char ws1 -> Forall blank_char ws2 ->
  run cacheMisses_pat
      (cacheMisses_line n1 ++ (ws1 ++ NL :: ws2) ++ cacheMisses_line n2 ++ post)
      0 env0
  = Some (length (cacheMisses_line n1 ++ (ws1 ++ NL :: ws2) ++ cacheMisses_line n2),
          MkEnv [(1, 0)] [(1, (0, length (cacheMisses_line n1)))]).
Proof.
  intros He1 H1 He2 H2 Hw1 Hw2.
  repeat rewrite length_app. cbn [length]. rewrite !cacheMisses_line_length.
  unfold cacheMisses_pat. cbn [app]. rewrite run_gopen.
  unfold cacheMisses_line. repeat rewrite <- app_assoc. cbn [app].
  rewrite run_lit.
  apply run_plus_greedy; auto; [reflexivity|].
  change (txt "," ++ ?x) with (","%char :: x).
  rewrite run_one by reflexivity. rewrite run_gclose.
  apply run_star_then_char; auto.
  { eapply Forall_impl; [|exact Hw2]. now intros c [_ Hc]. }
  { split; [discriminate|reflexivity]. }
  apply run_star_greedy; [now apply blank_is_space|reflexivity|].
  rewrite run_lit.
  apply run_plus_greedy; auto; [reflexivity|].
  change (txt "," ++ post) with (","%char :: post).
  rewrite run_one by reflexivity. rewrite run_nil.
  unfold close_group, open_group. simpl. do 2 f_equal; lia.
Qed.

(** The first rule at two [cacheMisses] lines. *)
Lemma dedup_cacheMisses_head n1 gap n2 post :
  n1 <> [] -> Forall digit_char n1 -> n2 <> [] -> Forall digit_char n2 ->
  Forall space_char gap -> In NL gap ->
  sub cacheMisses_pat (Template [Ref 1])
      (cacheMisses_line n1 ++ gap ++ cacheMisses_line n2 ++ post)
  = cacheMisses_line n1 ++ sub cacheMisses_pat (Template [Ref 1]) post.
Proof.
  intros He1 H1 He2 H2 Hg Hnl.
  destruct (in_split_last _ _ Hnl) as (ws1 & ws2 & -> & Hlast).
  destruct (blank_of_last_newline _ _ Hg Hlast) as [Hw1 Hw2].
  pose proof (@cacheMisses_run_gap n1 ws1 ws2 n2 post He1 H1 He2 H2 Hw1 Hw2) as Hrun.
  replace (cacheMisses_line n1 ++ (ws1 ++ NL :: ws2) ++ cacheMisses_line n2 ++ post)
    with ((cacheMisses_line n1 ++ (ws1 ++ NL :: ws2) ++ cacheMisses_line n2) ++ post) in *
    by (repeat rewrite <- app_assoc; reflexivity).
  rewrite (@sub_match_head _ (Template [Ref 1]) _ _
             (MkMatch (length (cacheMisses_line n1 ++ (ws1 ++ NL :: ws2)
                               ++ cacheMisses_line n2))
                      [(1, (0, length (cacheMisses_line n1)))])).
  - cbn [expand expand_template group m_spans assoc Nat.eqb].
    rewrite <- (app_assoc (cacheMisses_line n1)).
    rewrite slice_prefix by reflexivity. now rewrite app_nil_r.
  - unfold match_at. now rewrite Hrun.
  - reflexivity.
  - unfold cacheMisses_line. discriminate.
Qed.

(** X8: the first rule in a text: two [cacheMisses] lines, with any numbers,
    separated by whitespace that holds a newline, become the first line;
    the text before is copied and the substitution goes on after the second
    line. *)
Theorem dedup_cacheMisses_in_context pre n1 gap n2 post :
  clear_before cacheMisses_pat pre
    (cacheMisses_line n1 ++ gap ++ cacheMisses_line n2 ++ post) = true ->
  n1 <> [] -> Forall digit_char n1 -> n2 <> [] -> Forall digit_char n2 ->
  Forall space_char gap -> In NL gap ->
  dedup_cacheMisses (pre ++ cacheMisses_line n1 ++ gap ++ cacheMisses_line n2 ++ post)
  = pre ++ cacheMisses_line n1 ++ dedup_cacheMisses post.
Proof.
  intros Hpre He1 H1 He2 H2 Hg Hnl. unfold dedup_cacheMisses.
  rewrite (sub_clear_before _ _ _ _ Hpre).
  rewrite dedup_cacheMisses_head by assumption. reflexivity.
Qed.

Lemma dedup_cacheMisses_in_context_witness :
  dedup_cacheMisses
    (txt "{ " ++ cacheMisses_line (txt "3") ++ (txt " " ++ NL :: NL :: txt "  ")
     ++ cacheMisses_line (txt "40") ++ txt " }")
  = txt "{ " ++ cacheMisses_line (txt "3") ++ dedup_cacheMisses (txt " }").
Proof.
  apply (@dedup_cacheMisses_in_context (txt "{ ") (txt "3")
           (txt " " ++ NL :: NL :: txt "  ") (txt "40") (txt " }")).
  - vm_compute. reflexivity.
  - discriminate.
  - repeat constructor.
  - discriminate.
  - repeat constructor.
  - repeat constructor.
  - right. left. reflexivity.
Defined.

(** *** Rule 3 *)

Lemma brace_comma_run_post gap post :
  Forall space_char gap ->
  run brace_comma_pat (braces_with_comma gap ++ post) 0 env0
  = Some (length (braces_with_comma gap), env0).
Proof.
  intros Hg. unfold brace_comma_pat, braces_with_comma.
  repeat rewrite <- app_assoc.
  change (txt "}," ++ gap ++ txt "}" ++ post)
    with ("}"%char :: ","%char :: gap ++ "}"%char :: post).
  rewrite !run_one by reflexivity.
  apply run_star_greedy; auto; [reflexivity|].
  rewrite run_one by reflexivity. rewrite run_nil.
  do 2 f_equal. repeat rewrite length_app. simpl. lia.
Qed.

(** The third rule at a comma between two closing braces. *)
Lemma fix_braces_head gap post :
  Forall space_char gap ->
  sub brace_comma_pat (Template [Txt fixed_braces]) (braces_with_comma gap ++ post)
  = fixed_braces ++ sub brace_comma_pat (Template [Txt fixed_braces]) post.
Proof.
  intros Hg.
  rewrite (@sub_match_head _ _ _ _ (MkMatch (length (braces_with_comma gap)) [])).
  - cbn [expand expand_template]. now rewrite app_nil_r.
  - unfold match_at. now rewrite brace_comma_run_post.
  - reflexivity.
  - unfold braces_with_comma. discriminate.
Qed.

(** X9: the third rule in a text: a comma between two closing braces goes, the
    whitespace after it becomes a newline and six spaces, the text before
    is copied and the substitution goes on after the second brace. *)
Theorem fix_braces_in_context pre gap post :
  clear_before brace_comma_pat pre (braces_with_comma gap ++ post) = true ->
  Forall space_char gap ->
  fix_braces (pre ++ braces_with_comma gap ++ post)
  = pre ++ fixed_braces ++ fix_braces post.
Proof.
  intros Hpre Hg. unfold fix_braces. fold fixed_braces.
  rewrite (sub_clear_before _ _ _ _ Hpre).
  rewrite fix_braces_head by assumption. reflexivity.
Qed.

Lemma fix_braces_in_context_witness :
  fix_braces (txt "{ a: { b: 1 " ++ braces_with_comma (NL :: txt "  ") ++ txt ";")
  = txt "{ a: { b: 1 " ++ fixed_braces ++ fix_braces (txt ";").
Proof.
  apply (@fix_braces_in_context (txt "{ a: { b: 1 ") (NL :: txt "  ") (txt ";")).
  - vm_compute. reflexivity.
  - repeat constructor.
Defined.


(** *** An odd number of [cacheMisses] lines *)

Lemma digit_not_comma c : digit_char c -> c <> ","%char.
Proof. intros H ->. vm_compute in H. discriminate. Qed.

Lemma digit_not_c c : digit_char c -> Ascii.eqb "c" c = false.
Proof. apply (@class_excludes is_digit). reflexivity. Qed.

(** No match starts at a [cacheMisses] line that ends the text. *)
Lemma cacheMisses_no_match_alone n :
  n <> [] -> Forall digit_char n ->
  match_at cacheMisses_pat (cacheMisses_line n) = None.
Proof.
  intros Hne Hn. unfold match_at.
  replace (run cacheMisses_pat (cacheMisses_line n) 0 env0)
    with (@None (nat * env)); [reflexivity|]. symmetry.
  unfold cacheMisses_pat, cacheMisses_line. cbn [app].
  rewrite run_gopen, run_lit.
  apply (@run_plus_fail _ _ (fun c => c <> ","%char)); auto.
  - eapply Forall_impl; [|exact Hn]. apply digit_not_comma.
  - intros c t m Hc. cbn [run cset_mem].
    destruct (Ascii.eqb "," c) eqn:E; auto.
    apply Ascii.eqb_eq in E. congruence.
  - reflexivity.
Qed.

Lemma dedup_cacheMisses_alone n :
  n <> [] -> Forall digit_char n ->
  sub cacheMisses_pat (Template [Ref 1]) (cacheMisses_line n) = cacheMisses_line n.
Proof.
  intros Hne Hn.
  rewrite <- (app_nil_r (cacheMisses_line n)) at 1.
  rewrite sub_clear_before; [apply app_nil_r|].
  change (cacheMisses_line n)
    with ("c"%char :: txt "acheMisses: " ++ n ++ txt ",").
  apply clear_before_cons.
  - rewrite app_nil_r. now apply cacheMisses_no_match_alone.
  - apply LiteralFacts.clear_before_app; [vm_compute; reflexivity|].
    apply clear_before_refused. intros c t Hc.
    apply cacheMisses_refuses. revert c Hc. apply Forall_forall.
    apply Forall_app. split; [|repeat constructor].
    eapply Forall_impl; [|exact Hn]. apply digit_not_c.
Qed.

Lemma cacheMisses_line_all (P : ascii -> Prop) n :
  Forall P (txt "cacheMisses: ,") -> Forall P n -> Forall P (cacheMisses_line n).
Proof.
  intros Hl Hn. unfold cacheMisses_line.
  change (txt "cacheMisses: ,") with (txt "cacheMisses: " ++ txt ",") in Hl.
  apply Forall_app in Hl. destruct Hl as [Ha Hb].
  apply Forall_app. split; [exact Ha|]. apply Forall_app. now split.
Qed.

Lemma cacheMisses_lines_no_u n1 n3 :
  Forall digit_char n1 -> Forall digit_char n3 ->
  Forall (fun c => Ascii.eqb "u" c = false)
         (cacheMisses_line n1 ++ NL :: cacheMisses_line n3).
Proof.
  intros H1 H3. apply Forall_app. split; [|constructor; [reflexivity|]];
    apply cacheMisses_line_all; try (repeat constructor).
  - eapply Forall_impl; [|exact H1]. apply digit_not_u.
  - eapply Forall_impl; [|exact H3]. apply digit_not_u.
Qed.

Lemma cacheMisses_lines_no_brace n1 n3 :
  Forall digit_char n1 -> Forall digit_char n3 ->
  Forall (fun c => Ascii.eqb "}" c = false)
         (cacheMisses_line n1 ++ NL :: cacheMisses_line n3).
Proof.
  intros H1 H3. apply Forall_app. split; [|constructor; [reflexivity|]];
    apply cacheMisses_line_all; try (repeat constructor).
  - eapply Forall_impl; [|exact H1]. apply digit_not_brace.
  - eapply Forall_impl; [|exact H3]. apply digit_not_brace.
Qed.

(** X10: three [cacheMisses] lines in a row, with any numbers: one run of the
    script joins the first two and leaves the third, and only a second run
    leaves the first line alone. *)
Theorem three_lines_need_two_runs n1 n2 n3 :
  n1 <> [] -> Forall digit_char n1 ->
  n2 <> [] -> Forall digit_char n2 ->
  n3 <> [] -> Forall digit_char n3 ->
  FixComparisonTests.rewrite
    (cacheMisses_line n1 ++ NL :: cacheMisses_line n2 ++ NL :: cacheMisses_line n3)
  = cacheMisses_line n1 ++ NL :: cacheMisses_line n3 /\
  FixComparisonTests.rewrite (cacheMisses_line n1 ++ NL :: cacheMisses_line n3)
  = cacheMisses_line n1.
Proof.
  intros He1 H1 He2 H2 He3 H3.
  assert (Hnl : In NL [NL]) by (left; reflexivity).
  assert (Hsp : Forall space_char [NL]) by (repeat constructor).
  assert (Etail : dedup_cacheMisses (NL :: cacheMisses_line n3)
                  = NL :: cacheMisses_line n3).
  { unfold dedup_cacheMisses.
    change (NL :: cacheMisses_line n3) with ([NL] ++ cacheMisses_line n3) at 1.
    rewrite sub_clear_before by reflexivity.
    rewrite dedup_cacheMisses_alone by assumption. reflexivity. }
  split; unfold FixComparisonTests.rewrite.
  - pose proof (@dedup_cacheMisses_head n1 [NL] n2 (NL :: cacheMisses_line n3)
                  He1 H1 He2 H2 Hsp Hnl) as E.
    cbn [app] in E. unfold dedup_cacheMisses at 1. rewrite E.
    fold (dedup_cacheMisses (NL :: cacheMisses_line n3)). rewrite Etail.
    rewrite dedup_unitBreakdown_refused by (now apply cacheMisses_lines_no_u).
    apply fix_braces_refused. now apply cacheMisses_lines_no_brace.
  - pose proof (@dedup_cacheMisses_head n1 [NL] n3 [] He1 H1 He3 H3 Hsp Hnl) as E.
    cbn [app] in E. rewrite app_nil_r in E.
    unfold dedup_cacheMisses at 1. rewrite E.
    change (sub cacheMisses_pat (Template [Ref 1]) []) with (@nil ascii).
    rewrite app_nil_r.
    rewrite dedup_unitBreakdown_refused.
    + apply fix_braces_refused. unfold cacheMisses_line.
      pieces_by H1 digit_not_brace.
    + unfold cacheMisses_line. pieces_by H1 digit_not_u.
Qed.

Lemma three_lines_need_two_runs_witness :
  FixComparisonTests.rewrite
    (cacheMisses_line (txt "1") ++ NL :: cacheMisses_line (txt "2")
     ++ NL :: cacheMisses_line (txt "3"))
  = cacheMisses_line (txt "1") ++ NL :: cacheMisses_line (txt "3") /\
  FixComparisonTests.rewrite
    (cacheMisses_line (txt "1") ++ NL :: cacheMisses_line (txt "3"))
  = cacheMisses_line (txt "1").
Proof.
  apply (@three_lines_need_two_runs (txt "1") (txt "2") (txt "3"));
    try discriminate; repeat constructor.
Defined.

(** *** Rules 2 and 3 together *)

(** The second rule at two [unitBreakdown] blocks. *)
Lemma dedup_unitBreakdown_head b1 comma gap b2 post :
  b1 <> [] -> Forall no_brace b1 -> b2 <> [] -> Forall no_brace b2 ->
  comma = [] \/ comma = txt "," ->
  Forall space_char gap -> In NL gap ->
  sub unitBreakdown_pat (Template [Ref 1]) (duplicated_blocks b1 comma gap b2 ++ post)
  = unit_block b1 ++ sub unitBreakdown_pat (Template [Ref 1]) post.
Proof.
  intros He1 Hb1 He2 Hb2 Hc Hg Hnl.
  destruct (in_split_last _ _ Hnl) as (ws1 & ws2 & -> & Hlast).
  destruct (blank_of_last_newline _ _ Hg Hlast) as [H1 H2].
  pose proof (@unitBreakdown_run b1 comma ws1 ws2 b2 post He1 Hb1 He2 Hb2 Hc H1 H2) as Hrun.
  rewrite (@sub_match_head _ (Template [Ref 1]) _ _
             (MkMatch (length (duplicated_blocks b1 comma (ws1 ++ NL :: ws2) b2))
                      [(1, (0, length (unit_block b1)))])).
  - cbn [expand expand_template group m_spans assoc Nat.eqb].
    unfold duplicated_blocks at 1. rewrite <- (app_assoc (unit_block b1)).
    rewrite slice_prefix by reflexivity. now rewrite app_nil_r.
  - unfold match_at. now rewrite Hrun.
  - reflexivity.
  - unfold duplicated_blocks, unit_block. discriminate.
Qed.

Lemma no_brace_not_brace c : no_brace c -> Ascii.eqb "}" c = false.
Proof.
  unfold no_brace, in_cset. cbn [cset_mem].
  destruct (Ascii.eqb "}" c); [discriminate|reflexivity].
Qed.

(** X11: a duplicated [unitBreakdown] block that is the last property of its
    object, in a text without duplicated [cacheMisses] lines: the second
    rule leaves the first block, with the comma of the second before the
    closing brace, and the third rule takes that comma away. *)
Theorem duplicate_last_property b1 comma gap b2 gap2 :
  ~ occurs cacheMisses_pat
      (duplicated_blocks b1 comma gap b2 ++ txt "," ++ gap2 ++ txt "}") ->
  b1 <> [] -> Forall no_brace b1 -> b2 <> [] -> Forall no_brace b2 ->
  comma = [] \/ comma = txt "," ->
  Forall space_char gap -> In NL gap -> Forall space_char gap2 ->
  FixComparisonTests.rewrite
    (duplicated_blocks b1 comma gap b2 ++ txt "," ++ gap2 ++ txt "}")
  = txt "unitBreakdown: {" ++ b1 ++ fixed_braces.
Proof.
  intros Hclean He1 Hb1 He2 Hb2 Hc Hg Hnl Hg2.
  unfold FixComparisonTests.rewrite.
  unfold dedup_cacheMisses. rewrite (sub_clean _ Hclean).
  unfold dedup_unitBreakdown at 1.
  rewrite dedup_unitBreakdown_head by assumption.
  fold (dedup_unitBreakdown (txt "," ++ gap2 ++ txt "}")).
  rewrite dedup_unitBreakdown_refused.
  - unfold unit_block. repeat rewrite <- app_assoc.
    replace (txt "unitBreakdown: {" ++ b1 ++ txt "}" ++ txt "," ++ gap2 ++ txt "}")
      with ((txt "unitBreakdown: {" ++ b1) ++ braces_with_comma gap2 ++ [])
      by (unfold braces_with_comma; repeat rewrite <- app_assoc; reflexivity).
    unfold fix_braces. fold fixed_braces. rewrite sub_clear_before.
    + rewrite fix_braces_head by assumption.
      change (sub brace_comma_pat _ []) with (@nil ascii).
      rewrite app_nil_r, <- app_assoc. reflexivity.
    + apply clear_before_refused. intros c t Hin.
      apply brace_comma_refuses. revert c Hin. apply Forall_forall.
      apply Forall_app. split; [repeat constructor|].
      eapply Forall_impl; [|exact Hb1]. apply no_brace_not_brace.
  - apply Forall_app. split; [repeat constructor|].
    apply Forall_app. split; [|repeat constructor].
    eapply Forall_impl; [|exact Hg2]. apply space_not_u.
Qed.

Lemma duplicate_last_property_witness :
  FixComparisonTests.rewrite
    (duplicated_blocks (txt " days: 1 ") (txt ",") (NL :: txt "    ") (txt " days: 2 ")
     ++ txt "," ++ (NL :: txt "  ") ++ txt "}")
  = txt "unitBreakdown: {" ++ txt " days: 1 " ++ fixed_braces.
Proof.
  apply (@duplicate_last_property (txt " days: 1 ") (txt ",") (NL :: txt "    ")
           (txt " days: 2 ") (NL :: txt "  ")).
  - apply search_none_iff. vm_compute. reflexivity.
  - discriminate.
  - repeat constructor.
  - discriminate.
  - repeat constructor.
  - right. reflexivity.
  - repeat constructor.
  - left. reflexivity.
  - repeat constructor.
Defined.

End ComparisonStepFacts.

(* ================================================================= *)
(** ** Substitutions that only take text away *)

Module LengthFacts.
Import Re ReFacts PatternFacts RunFacts.
Import Texts MoreTexts.

Lemma spans_within_le e n m :
  spans_within e n -> n <= m -> spans_within e m.
Proof. intros H Hle g a b Hin. specialize (H g a b Hin). lia. Qed.

Lemma run_grows r s n e n' e' : run r s n e = Some (n', e') -> n <= n'.
Proof.
  intros H. destruct (@run_sound _ _ _ _ _ _ H) as (w & rest & _ & -> & _). lia.
Qed.

(** The groups of a match end inside the match. *)
Lemma run_spans r : forall s n e n' e',
  run r s n e = Some (n', e') -> spans_within e n -> spans_within e' n'.
Proof.
  induction r as [|a r IH]; intros s n e n' e' H He.
  - cbn [run] in H. now injection H as <- <-.
  - destruct a as [cs|cs|cs|cs|g|g].
    + apply run_one_inv in H. destruct H as (c & s' & _ & _ & H).
      apply (IH _ _ _ _ _ H). apply (spans_within_le He). lia.
    + apply run_star_inv in H. destruct H as (w & s' & _ & _ & H).
      apply (IH _ _ _ _ _ H). apply (spans_within_le He). lia.
    + apply run_plus_inv in H. destruct H as (w & s' & _ & _ & _ & H).
      apply (IH _ _ _ _ _ H). apply (spans_within_le He). lia.
    + cbn [run] in H. destruct s as [|c s].
      * now apply (IH _ _ _ _ _ H).
      * destruct (cset_mem cs c).
        -- destruct (run r s (S n) e) as [x|] eqn:E.
           ++ injection H as ->. apply (IH _ _ _ _ _ E).
              apply (spans_within_le He). lia.
           ++ now apply (IH _ _ _ _ _ H).
        -- now apply (IH _ _ _ _ _ H).
    + cbn [run] in H. apply (IH _ _ _ _ _ H). exact He.
    + cbn [run] in H. apply (IH _ _ _ _ _ H).
      unfold close_group. destruct (assoc g (starts e)) as [a|]; auto.
      intros g' a' b' [Hin|Hin].
      * injection Hin as _ _ <-. lia.
      * now apply (He g' a' b').
Qed.

Lemma assoc_in {A : Type} g (l : list (nat * A)) x :
  assoc g l = Some x -> In (g, x) l.
Proof.
  induction l as [|[h a] l IH]; simpl; [discriminate|].
  destruct (Nat.eqb g h) eqn:E.
  - intros [= ->]. apply Nat.eqb_eq in E. subst. now left.
  - intros H. right. now apply IH.
Qed.

(** No group of a match is longer than the match. *)
Lemma group_length r s m g :
  match_at r s = Some m -> length (group s m g) <= m_end m.
Proof.
  unfold match_at. destruct (run r s 0 env0) as [[n e]|] eqn:H; [|discriminate].
  intros [= <-]. destruct g as [|g]; cbn [group m_end m_spans].
  - apply firstn_le_length.
  - destruct (assoc (S g) (spans e)) as [[a b]|] eqn:E; [|simpl; lia].
    apply assoc_in in E.
    assert (Hs : spans_within e n).
    { eapply run_spans; [exact H|]. intros g' a' b' []. }
    specialize (Hs _ _ _ E). unfold slice.
    pose proof (firstn_le_length (b - a) (skipn a s)). lia.
Qed.

Lemma match_within r s m : match_at r s = Some m -> m_end m <= length s.
Proof.
  intros H. destruct (@match_at_sound _ _ _ H) as (w & rest & -> & -> & _).
  rewrite length_app. lia.
Qed.

(** [re.sub] does not lengthen a text when no replacement is longer than
    what it replaces. *)
Lemma sub_loop_shrinks r rp :
  (forall s m, match_at r s = Some m -> length (expand rp s m) <= m_end m) ->
  forall s skip, length (sub_loop r rp s skip) <= length s - skip.
Proof.
  intros Hrp. induction s as [|c s IH]; intros skip.
  - destruct skip as [|k]; cbn [sub_loop]; [|simpl; lia].
    destruct (match_at r []) as [m|] eqn:E; [|simpl; lia].
    pose proof (Hrp _ _ E). pose proof (@match_within _ _ _ E).
    rewrite length_app. simpl in *. lia.
  - destruct skip as [|k]; cbn [sub_loop].
    + destruct (match_at r (c :: s)) as [m|] eqn:E.
      * pose proof (Hrp _ _ E) as H1. pose proof (@match_within _ _ _ E) as H2.
        rewrite length_app. destruct (m_end m) as [|k].
        -- specialize (IH 0). simpl in *. lia.
        -- specialize (IH k). simpl in *. lia.
      * specialize (IH 0). simpl in *. lia.
    + specialize (IH k). simpl in *. lia.
Qed.

Lemma sub_group_shrinks r g x :
  length (sub r (Template [Ref g]) x) <= length x.
Proof.
  unfold sub.
  assert (H : forall s m, match_at r s = Some m ->
                          length (expand (Template [Ref g]) s m) <= m_end m).
  { intros s m Hm. cbn [expand expand_template]. rewrite app_nil_r.
    now apply group_length with (r := r). }
  pose proof (@sub_loop_shrinks _ _ H x 0). lia.
Qed.

(** X12: the two rules that remove duplicates and the rule that removes the
    [frequency] field never make a text longer: each match gives way to its
    own first group, or to nothing. *)
Theorem removals_do_not_lengthen x :
  length (FixComparisonTests.dedup_cacheMisses x) <= length x /\
  length (FixComparisonTests.dedup_unitBreakdown x) <= length x /\
  length (FixCacheStats.strip_frequency x) <= length x.
Proof.
  repeat split.
  - apply sub_group_shrinks.
  - apply sub_group_shrinks.
  - unfold FixCacheStats.strip_frequency, sub.
    assert (H : forall s m, match_at FixCacheStats.frequency_pat s = Some m ->
                            length (expand (Template []) s m) <= m_end m).
    { intros s m _. simpl. lia. }
    pose proof (@sub_loop_shrinks _ _ H x 0). lia.
Qed.

End LengthFacts.

(* ================================================================= *)
(** ** What a run leaves behind *)

Module OutcomeFacts.
Import Re ReFacts PatternFacts RunFacts Os.
Import Texts MoreTexts.

(** *** The world after a run that succeeds *)

Section OneRun.

Variable rules : str -> str.
Variable msg : str.

Let script : io unit :=
  content <- read_text target ;;
  write_text target (rules content) ;;;
  print msg.

Lemma script_outcome w f :
  disk w target = Some f -> readable f = true -> writable f = true ->
  script w
  = (inr tt,
     MkWorld (update (disk w) target
                (MkFile (rules (universal_newlines (data f))) (readable f) (writable f)))
             (stdout w ++ [msg])).
Proof.
  intros D Hr Hw. unfold script, bind, read_text, write_text, print.
  rewrite D, Hr. cbn [fst snd disk stdout]. rewrite D, Hw.
  cbn [fst snd disk stdout]. rewrite ?Hr, ?Hw. reflexivity.
Qed.

End OneRun.


Lemma update_here d p f : update d p f p = Some f.
Proof. unfold update. now rewrite String.eqb_refl. Qed.




(** *** Line ends *)

Lemma no_cr_of_bool s :
  forallb (fun c => negb (Ascii.eqb c CR)) s = true -> no_cr s.
Proof.
  intros H. apply Forall_forall. intros c Hc.
  rewrite forallb_forall in H. specialize (H c Hc).
  intros ->. rewrite Ascii.eqb_refl in H. discriminate.
Qed.

(** Reading with universal newlines leaves no carriage return. *)
Lemma universal_newlines_no_cr s :
  no_cr (universal_newlines s) /\ forall c, no_cr (universal_newlines (c :: s)).
Proof.
  induction s as [|d s [IH1 IH2]].
  - split; [constructor|]. intros c. cbn [universal_newlines].
    destruct (Ascii.eqb c CR) eqn:E.
    + repeat constructor. discriminate.
    + repeat constructor. intros ->. rewrite Ascii.eqb_refl in E. discriminate.
  - split; [apply IH2|]. intros c. cbn [universal_newlines].
    destruct (Ascii.eqb c CR) eqn:E.
    + destruct (Ascii.eqb d NL).
      * constructor; [discriminate|exact IH1].
      * constructor; [discriminate|apply IH2].
    + constructor; [|apply IH2].
      intros ->. rewrite Ascii.eqb_refl in E. discriminate.
Qed.

(** It returns as it is a text that has none. *)
Lemma universal_newlines_id s : no_cr s -> universal_newlines s = s.
Proof.
  induction 1 as [|c s Hc Hs IH]; [reflexivity|].
  cbn [universal_newlines]. destruct (Ascii.eqb c CR) eqn:E.
  - apply Ascii.eqb_eq in E. contradiction.
  - now rewrite IH.
Qed.

Section Kept.

Variable P : ascii -> Prop.

Lemma Forall_firstn_kept n : forall l : str, Forall P l -> Forall P (firstn n l).
Proof.
  induction n as [|n IH]; intros l H; [constructor|].
  destruct H; cbn [firstn]; constructor; auto.
Qed.

Lemma Forall_skipn_kept n : forall l : str, Forall P l -> Forall P (skipn n l).
Proof.
  induction n as [|n IH]; intros l H; [exact H|].
  destruct H; cbn [skipn]; auto.
Qed.

Lemma group_kept s m g : Forall P s -> Forall P (group s m g).
Proof.
  intros H. destruct g as [|g]; cbn [group].
  - now apply Forall_firstn_kept.
  - destruct (assoc (S g) (m_spans m)) as [[a b]|]; [|constructor].
    unfold slice. now apply Forall_firstn_kept, Forall_skipn_kept.
Qed.

Lemma expand_template_kept t s m :
  Forall P s -> (forall x, In (Txt x) t -> Forall P x) ->
  Forall P (expand_template t s m).
Proof.
  intros Hs. induction t as [|[x|g] t IH]; intros Ht; cbn [expand_template].
  - constructor.
  - apply Forall_app. split.
    + apply Ht. now left.
    + apply IH. intros y Hy. apply Ht. now right.
  - apply Forall_app. split.
    + now apply group_kept.
    + apply IH. intros y Hy. apply Ht. now right.
Qed.

Lemma split_head_kept sep x : Forall P x -> Forall P (FixCacheStats.split_head sep x).
Proof.
  induction 1 as [|c x Hc Hx IH]; cbn; [constructor|].
  destruct (Ascii.eqb c sep); constructor; auto.
Qed.

(** [re.sub] keeps a property of the characters that its replacements
    keep. *)
Lemma sub_loop_kept r rp :
  (forall s m, Forall P s -> Forall P (expand rp s m)) ->
  forall s skip, Forall P s -> Forall P (sub_loop r rp s skip).
Proof.
  intros Hrp. induction s as [|c s IH]; intros skip Hs.
  - destruct skip; cbn [sub_loop]; [|constructor].
    destruct (match_at r []); [|constructor].
    apply Forall_app. split; [now apply Hrp|constructor].
  - inversion Hs as [|? ? Hc Hs']; subst.
    destruct skip as [|k]; cbn [sub_loop]; [|now apply IH].
    destruct (match_at r (c :: s)) as [m|].
    + apply Forall_app. split; [now apply Hrp|].
      destruct (m_end m); [constructor|]; auto.
    + constructor; auto.
Qed.

End Kept.


Lemma sub_template_no_cr r t x :
  (forall y, In (Txt y) t -> no_cr y) ->
  no_cr x -> no_cr (sub r (Template t) x).
Proof.
  intros Ht Hx. unfold no_cr, sub. apply sub_loop_kept; auto.
  intros s m Hs. cbn [expand]. now apply expand_template_kept.
Qed.

Lemma complete_cache_stats_no_cr : no_cr FixCacheStats.complete_cache_stats.
Proof. apply no_cr_of_bool. vm_compute. reflexivity. Qed.

Lemma comparison_rewrite_no_cr x :
  no_cr x -> no_cr (FixComparisonTests.rewrite x).
Proof.
  intros Hx. unfold FixComparisonTests.rewrite, FixComparisonTests.fix_braces,
    FixComparisonTests.dedup_unitBreakdown, FixComparisonTests.dedup_cacheMisses.
  repeat apply sub_template_no_cr; auto.
  - intros y [[= <-]|[]]. apply no_cr_of_bool. vm_compute. reflexivity.
  - intros y [[=]|[]].
  - intros y [[=]|[]].
Qed.

Lemma cache_stats_rewrite_no_cr x :
  no_cr x -> no_cr (FixCacheStats.rewrite x).
Proof.
  intros Hx. unfold FixCacheStats.rewrite, FixCacheStats.strip_frequency,
    FixCacheStats.replace_inline, FixCacheStats.inline_repl.
  repeat apply sub_template_no_cr.
  - intros y [].
  - intros y [[=]|[[= <-]|[]]]. apply complete_cache_stats_no_cr.
  - unfold FixCacheStats.replace_const, no_cr, sub. apply sub_loop_kept; auto.
    intros s m Hs. unfold expand, FixCacheStats.const_repl.
    apply Forall_app; split; [now apply split_head_kept, group_kept|].
    apply Forall_app; split; [apply no_cr_of_bool; reflexivity|].
    apply Forall_app; split; [apply complete_cache_stats_no_cr|].
    apply no_cr_of_bool. reflexivity.
Qed.

(** X14: after a run that succeeds, the file holds no carriage return: the text
    is read with [\r\n] and [\r] turned into [\n], no rule writes one, and
    the text is written with [\n] as it is. *)
Theorem written_text_has_no_cr w f :
  disk w target = Some f -> readable f = true -> writable f = true ->
  (exists x, text_at target (snd (FixComparisonTests.main w)) = Some x /\ no_cr x) /\
  (exists x, text_at target (snd (FixCacheStats.main w)) = Some x /\ no_cr x).
Proof.
  intros D Hr Hw. split.
  - exists (FixComparisonTests.rewrite (universal_newlines (data f))). split.
    + unfold FixComparisonTests.main, text_at.
      rewrite (script_outcome FixComparisonTests.rewrite _ w D Hr Hw).
      cbn [snd disk]. now rewrite update_here.
    + apply comparison_rewrite_no_cr, universal_newlines_no_cr.
  - exists (FixCacheStats.rewrite (universal_newlines (data f))). split.
    + unfold FixCacheStats.main, text_at.
      rewrite (script_outcome FixCacheStats.rewrite _ w D Hr Hw).
      cbn [snd disk]. now rewrite update_here.
    + apply cache_stats_rewrite_no_cr, universal_newlines_no_cr.
Qed.

Lemma written_text_has_no_cr_witness :
  (exists x, text_at target (snd (FixComparisonTests.main two_file_world)) = Some x
             /\ no_cr x) /\
  (exists x, text_at target (snd (FixCacheStats.main two_file_world)) = Some x
             /\ no_cr x).
Proof.
  apply (@written_text_has_no_cr two_file_world crlf_file); reflexivity.
Defined.

(** *** A second run *)

(** X15: on a file with nothing to fix and no carriage return, a run writes
    back the text it read: the disk is afterwards what it was before. *)
Theorem run_on_clean_file_keeps_disk w f :
  disk w target = Some f -> readable f = true -> writable f = true ->
  clean (data f) -> no_cr (data f) ->
  forall q,
    disk (snd (FixComparisonTests.main w)) q = disk w q /\
    disk (snd (FixCacheStats.main w)) q = disk w q.
Proof.
  intros D Hr Hw Hc Hn q.
  unfold FixComparisonTests.main, FixCacheStats.main.
  rewrite (script_outcome FixComparisonTests.rewrite _ w D Hr Hw).
  rewrite (script_outcome FixCacheStats.rewrite _ w D Hr Hw).
  cbn [snd disk]. rewrite (universal_newlines_id Hn).
  rewrite (PipelineFacts.rewrite_comparison_clean Hc).
  rewrite (PipelineFacts.rewrite_cache_stats_clean Hc).
  assert (E : MkFile (data f) (readable f) (writable f) = f) by (now destruct f).
  rewrite E. unfold update. destruct (String.eqb q target) eqn:Eq; auto.
  apply String.eqb_eq in Eq. subst q. auto.
Qed.

Lemma run_on_clean_file_keeps_disk_witness :
  disk (snd (FixComparisonTests.main tidy_world)) target = disk tidy_world target /\
  disk (snd (FixCacheStats.main tidy_world)) target = disk tidy_world target.
Proof.
  apply (@run_on_clean_file_keeps_disk tidy_world tidy_file);
    try reflexivity.
  - apply PipelineFacts.cleanb_clean. vm_compute. reflexivity.
  - apply no_cr_of_bool. vm_compute. reflexivity.
Defined.

End OutcomeFacts.
